(** * ai-summon: the auto-discovery project picker

    A shallow embedding of the repository scanner and the repository cache
    of [src/util.ts] and of the catalog, search and separator formatting of
    [src/commands/ide/index.ts], with the properties the specification
    states about them. *)

From Stdlib Require Import String Ascii List ZArith Bool Lia Arith.
From Stdlib Require Import Permutation Sorted.
Import ListNotations.
Open Scope string_scope.

Set Implicit Arguments.
Local Set Warnings "-register-all".

(** ** Strings *)

Module Str.

(** [String.prototype.startsWith]. *)
Fixpoint startsWith (s k : string) : bool :=
  match k, s with
  | EmptyString, _ => true
  | String _ _, EmptyString => false
  | String a k', String b s' => Ascii.eqb a b && startsWith s' k'
  end.

(** [String.prototype.includes]: [k] occurs somewhere in [s]. *)
Fixpoint includes (s k : string) : bool :=
  startsWith s k ||
  match s with
  | EmptyString => false
  | String _ s' => includes s' k
  end.

(** The white space of [\s] and of [trim] within ASCII: tab, line feed,
    vertical tab, form feed, carriage return and space. *)
Definition is_space (c : ascii) : bool :=
  let n := nat_of_ascii c in
  ((9 <=? n)%nat && (n <=? 13)%nat) || (n =? 32)%nat.

(** [toLowerCase] on the ASCII letters; other characters are kept. *)
Definition lower_ascii (c : ascii) : ascii :=
  let n := nat_of_ascii c in
  if (65 <=? n)%nat && (n <=? 90)%nat then ascii_of_nat (n + 32) else c.

Fixpoint toLowerCase (s : string) : string :=
  match s with
  | EmptyString => EmptyString
  | String c r => String (lower_ascii c) (toLowerCase r)
  end.

Fixpoint trimStart (s : string) : string :=
  match s with
  | EmptyString => EmptyString
  | String c r => if is_space c then trimStart r else s
  end.

(** Drops the white space at the end: the result of the recursive call
    is empty exactly when the rest of the string is all white space. *)
Fixpoint trimEnd (s : string) : string :=
  match s with
  | EmptyString => EmptyString
  | String c r =>
      match trimEnd r with
      | EmptyString => if is_space c then EmptyString else String c EmptyString
      | t => String c t
      end
  end.

Definition trim (s : string) : string := trimEnd (trimStart s).

(** [s.split(/\s+/)]: the pieces between the maximal runs of white
    space; [in_sep] says that the previous character was white space.
    An empty input gives one empty piece, as in JavaScript. *)
Fixpoint split_ws_from (in_sep : bool) (s : string) : list string :=
  match s with
  | EmptyString => [""]
  | String c r =>
      if is_space c then
        if in_sep then split_ws_from true r else "" :: split_ws_from true r
      else
        match split_ws_from false r with
        | t :: ts => String c t :: ts
        | [] => [String c ""]
        end
  end.

Definition split_ws (s : string) : list string := split_ws_from false s.

End Str.

(** ** Paths *)

Module Path.

Definition slash : ascii := "/"%char.

Fixpoint endsWithSlash (s : string) : bool :=
  match s with
  | EmptyString => false
  | String c EmptyString => Ascii.eqb c slash
  | String _ r => endsWithSlash r
  end.

(** [path.join(dir, name)] for a directory path and one entry name: the
    two are joined by one separator, which is not doubled after a
    directory path that already ends with it (the file system root). *)
Definition join (dir name : string) : string :=
  if endsWithSlash dir then dir ++ name else dir ++ "/" ++ name.

(** [path.basename]: the part after the last separator; [cur] is the
    segment read so far. The root [/] has the empty base name. *)
Fixpoint basename_from (cur s : string) : string :=
  match s with
  | EmptyString => cur
  | String c r =>
      if Ascii.eqb c slash then
        match r with
        | EmptyString => cur
        | _ => basename_from "" r
        end
      else basename_from (cur ++ String c "") r
  end.

Definition basename (s : string) : string := basename_from "" s.

Fixpoint hasSlash (s : string) : bool :=
  match s with
  | EmptyString => false
  | String c r => Ascii.eqb c slash || hasSlash r
  end.

(** A directory entry name: not empty and without a separator. *)
Definition segment (s : string) : Prop := s <> "" /\ hasSlash s = false.

Definition segmentb (s : string) : bool :=
  negb (String.eqb s "") && negb (hasSlash s).

(** The path of the directory reached from [dir] through [names]. *)
Fixpoint joins (dir : string) (names : list string) : string :=
  match names with
  | [] => dir
  | n :: ns => joins (join dir n) ns
  end.

(** What a chain of names adds to a path that does not end with a
    separator. *)
Fixpoint below (names : list string) : string :=
  match names with
  | [] => ""
  | n :: ns => "/" ++ n ++ below ns
  end.

(** A text that is empty or begins with a separator. *)
Definition slashOrEmpty (t : string) : Prop :=
  t = "" \/ exists r, t = String slash r.

End Path.

(** ** The file system the scanner observes *)

Module Fs.

(** What a directory lets the process do: [Open] can be listed and
    searched; [SearchOnly] resolves names but its listing raises;
    [Closed] raises for both. *)
Inductive access := Open | SearchOnly | Closed.

(** A file system object, as a scan observes it below the directory its
    working directory resolves to. A symbolic link records its target
    path and whether the target resolves ([live]); the target is never
    part of the tree below the link. The file system in which links lead
    to their targets is [Linked.obj]; [Linked.view] gives the tree
    observed there. *)
Inductive node :=
| File
| Symlink (target : string) (live : bool)
| Dir (perm : access) (entries : list (string * node)).

Fixpoint lookup (name : string) (entries : list (string * node)) : option node :=
  match entries with
  | [] => None
  | (n, x) :: rest => if String.eqb n name then Some x else lookup name rest
  end.

(** [existsSync(join(dir, '.git'))]: never raises; it is false when the
    directory cannot be searched, when there is no such entry and when
    the entry is a link whose target does not resolve. *)
Definition existsSync_git (perm : access) (entries : list (string * node)) : bool :=
  match perm with
  | Closed => false
  | _ =>
      match lookup ".git" entries with
      | None => false
      | Some (Symlink _ live) => live
      | Some _ => true
      end
  end.

(** [Dirent.isDirectory()]: true for a real directory only; a symbolic
    link is reported as a link, whatever it points at. *)
Definition isDirectory (x : node) : bool :=
  match x with
  | Dir _ _ => true
  | _ => false
  end.

End Fs.

(** ** The scanner ([findGitRepositories], src/util.ts) *)

Module Scanner.
Import Fs.

Record GitRepository := mkRepo {
  name : string;
  path : string;
  topLevelFolder : string
}.

(** The sentinel of the default parameter [topLevelFolder = '/']. *)
Definition rootSentinel : string := "/".

(** [scanDirectory(dir, topLevelFolder)] on the object [x] found at
    [dir]; [repositories] is the array the closure pushes to, threaded
    through the calls. The [try] block covers the whole body: a listing
    that raises leaves the array as it is. A path that is not a
    directory has no [.git] below it and its listing raises; a link is
    met as an entry of a listing only, where the loop passes it by. *)
Fixpoint scanDirectory (workingDirectory dir topLevelFolder : string) (x : node)
    (repositories : list GitRepository) {struct x} : list GitRepository :=
  match x with
  | Dir perm entries =>
      if existsSync_git perm entries then
        repositories ++ [mkRepo (Path.basename dir) dir topLevelFolder]
      else
        match perm with
        | Open =>
            (fix each (es : list (string * node)) (repositories : list GitRepository)
                 {struct es} : list GitRepository :=
               match es with
               | [] => repositories
               | (entry_name, entry) :: rest =>
                   match entry with
                   | Dir _ _ =>
                       let fullPath := Path.join dir entry_name in
                       let isTopLevel := String.eqb dir workingDirectory in
                       let currentTopLevel :=
                         if isTopLevel then entry_name else topLevelFolder in
                       each rest
                         (scanDirectory workingDirectory fullPath currentTopLevel
                            entry repositories)
                   | _ => each rest repositories
                   end
               end) entries repositories
        | _ => repositories
        end
  | _ => repositories
  end.

(** [findGitRepositories(workingDirectory)], [root] being the object
    the working directory resolves to: a working directory that is a
    link to a directory is scanned as that directory. *)
Definition findGitRepositories (workingDirectory : string) (root : node)
    : list GitRepository :=
  scanDirectory workingDirectory workingDirectory rootSentinel root [].

End Scanner.


(** ** [Array.prototype.sort] *)

Module JsArray.

Section Sort.
Variable A : Type.

(** The comparator, called as [comparefn(x, y)]; only the sign of its
    result is used. *)
Variable comparefn : A -> A -> Z.

(** The rest of the first run: [prev] is the last element taken, and
    each next element is compared with it, [comparefn(cur, prev)]; a
    descending run stops at the first result that is not negative, an
    ascending one at the first negative result. Returns the elements
    taken and those left. *)
Fixpoint extendRun (descending : bool) (prev : A) (l : list A) : list A * list A :=
  match l with
  | [] => ([], [])
  | cur :: rest =>
      let order := comparefn cur prev in
      if (if descending then (0 <=? order)%Z else (order <? 0)%Z) then ([], l)
      else
        let (run, left) := extendRun descending cur rest in
        (cur :: run, left)
  end.

(** The first run, made ascending (a descending run is reversed), and
    the elements after it. The first comparison is of the second
    element with the first, [comparefn(a[1], a[0])]. *)
Definition countAndMakeRun (l : list A) : list A * list A :=
  match l with
  | a0 :: a1 :: rest =>
      let descending := (comparefn a1 a0 <? 0)%Z in
      let (run, left) := extendRun descending a1 rest in
      let whole := a0 :: a1 :: run in
      ((if descending then rev whole else whole), left)
  | _ => (l, [])
  end.

(** The binary search of the insertion step: the index in
    [sorted[left..right)] where [pivot] goes, comparing
    [comparefn(pivot, sorted[mid])]. The interval shrinks at every
    step, so [fuel = length sorted] steps are enough. *)
Fixpoint searchSlot (fuel : nat) (pivot : A) (sorted : list A) (left right : nat) : nat :=
  match fuel with
  | O => left
  | S fuel' =>
      if (left <? right)%nat then
        let mid := (left + (right - left) / 2)%nat in
        match nth_error sorted mid with
        | Some m =>
            if (comparefn pivot m <? 0)%Z
            then searchSlot fuel' pivot sorted left mid
            else searchSlot fuel' pivot sorted (mid + 1) right
        | None => left
        end
      else left
  end.

Definition insertPivot (sorted : list A) (pivot : A) : list A :=
  let slot := searchSlot (length sorted) pivot sorted 0 (length sorted) in
  firstn slot sorted ++ pivot :: skipn slot sorted.

(** [Array.prototype.sort(comparefn)] as the runtime of the tool does
    it (Node.js, V8's array-sort): the first run is found, then every
    later element is put in place by binary insertion. V8 sorts an
    array of fewer than 64 elements in exactly this way; for a longer
    array it merges several such runs, which is not modelled. *)
Definition sort (l : list A) : list A :=
  let (run, left) := countAndMakeRun l in
  fold_left insertPivot left run.

End Sort.

End JsArray.

(** ** Results of code that can raise *)

Inductive outcome (A : Type) : Type :=
| Return (a : A)
| Throw.
Arguments Return {A} a.
Arguments Throw {A}.

(** ** The repository cache ([readIdeReposCache], [writeIdeReposCache]) *)

Module Cache.
Import Scanner.

(** A property value of the parsed cache document. The numbers of the
    document are integers ([version], [updatedAt]). An array is the
    [repos] array: its elements are repository objects, the type the
    code casts it to. *)
Inductive jsval :=
| JUndefined
| JNull
| JBool (b : bool)
| JNum (n : Z)
| JStr (s : string)
| JArray (repos : list GitRepository)
| JObject.

(** The cache file as the reader sees it. *)
Inductive cacheFile :=
| Missing                         (* [existsSync] is false *)
| Unparsable                      (* reading or [JSON.parse] raises *)
| ParsedNull                      (* the document [null] *)
| ParsedOther                     (* a number, string, boolean or array *)
| ParsedObject (version workingDirectory updatedAt repos : jsval).

Definition currentVersion : Z := 1.

(** [x !== 1] on line 88. *)
Definition notVersion1 (x : jsval) : bool :=
  match x with
  | JNum n => negb (n =? currentVersion)%Z
  | _ => true
  end.

(** [x !== workingDirectory] on line 89. *)
Definition notString (x : jsval) (s : string) : bool :=
  match x with
  | JStr t => negb (String.eqb t s)
  | _ => true
  end.

(** The body of the [try] block of [readIdeReposCache]: parsing can
    raise, and so does a property access on [null]. *)
Definition readBody (workingDirectory : string) (f : cacheFile)
    : outcome (option (list GitRepository)) :=
  match f with
  | Missing => Throw
  | Unparsable => Throw
  | ParsedNull => Throw
  | ParsedOther => Return None
  | ParsedObject version wd _ repos =>
      if notVersion1 version then Return None
      else if notString wd workingDirectory then Return None
      else
        match repos with
        | JArray l => Return (Some l)
        | _ => Return None
        end
  end.

(** [readIdeReposCache(workingDirectory)]; [None] is [null]. *)
Definition readIdeReposCache (workingDirectory : string) (f : cacheFile)
    : outcome (option (list GitRepository)) :=
  match f with
  | Missing => Return None
  | _ =>
      match readBody workingDirectory f with
      | Return r => Return r
      | Throw => Return None
      end
  end.

(** [writeIdeReposCache(workingDirectory, repos)]: the new content of
    the file, [now] being [Date.now()]. What [JSON.stringify] writes is
    what [JSON.parse] reads back. *)
Definition writeIdeReposCache (now : Z) (workingDirectory : string)
    (repos : list GitRepository) : cacheFile :=
  ParsedObject (JNum 1) (JStr workingDirectory) (JNum now) (JArray repos).

End Cache.

(** ** The catalog and the picker (src/commands/ide/index.ts) *)

Module Ide.
Import Scanner Cache.

(** [ReposConfig]: category -> project name -> path, in the order
    [Object.entries] gives them. *)
Definition ReposConfig := list (string * list (string * string)).

(** The fields of [HshConfig] the catalog reads, as in the file. *)
Record HshConfig := mkConfig {
  cfg_workingDirectory : option string;
  cfg_repos : option ReposConfig
}.

(** A string option as a condition: [undefined] and the empty string
    are falsy. *)
Definition truthy (s : option string) : bool :=
  match s with
  | Some t => negb (String.eqb t "")
  | None => false
  end.

(** [readConfig()] on the parsed configuration (util.ts, lines 38-49): a
    missing [repos] becomes the empty map when a working directory is
    set. *)
Definition readConfig (file : HshConfig) : HshConfig :=
  match cfg_repos file with
  | None =>
      if truthy (cfg_workingDirectory file)
      then mkConfig (cfg_workingDirectory file) (Some [])
      else file
  | Some _ => file
  end.

(** A catalog entry. *)
Record Project := mkProject {
  category : string;
  name : string;
  path : string;
  display : string
}.

(** A row of the selection list. *)
Record Row := mkRow {
  row_name : string;
  row_value : option Project;
  row_disabled : option string
}.

(** The variables of the module. *)
Record ModuleState := mkState {
  reposConfig : option ReposConfig;
  currentCategory : option string;
  workingDirectory : option string;
  autoDiscoveredRepos : list GitRepository
}.

Definition initialState : ModuleState := mkState None None None [].

(** What the process does to the outside, in order. *)
Inductive io :=
| IoScan (root : string)
| IoCacheRead
| IoCacheWrite.

(** The outside: the configuration file, the object found at each path
    ([None]: the path does not exist), the cache file, the clock, and
    the record of what was done. *)
Record World := mkWorld {
  configFile : HshConfig;
  fs : string -> option Fs.node;
  cache : cacheFile;
  clock : Z;
  trace : list io
}.

Definition existsSync (w : World) (p : string) : bool :=
  match fs w p with
  | Some _ => true
  | None => false
  end.

(** [findGitRepositories] in the world; a path that does not exist is
    scanned like one that is not a directory. *)
Definition scanWorld (w : World) (wd : string) : list GitRepository * World :=
  let root := match fs w wd with Some x => x | None => Fs.File end in
  (findGitRepositories wd root,
   mkWorld (configFile w) (fs w) (cache w) (clock w) (trace w ++ [IoScan wd])).

Definition writeWorld (w : World) (wd : string) (repos : list GitRepository) : World :=
  mkWorld (configFile w) (fs w) (writeIdeReposCache (clock w) wd repos) (clock w)
          (trace w ++ [IoCacheWrite]).

Definition readWorld (w : World) (wd : string)
    : outcome (option (list GitRepository)) * World :=
  (readIdeReposCache wd (cache w),
   mkWorld (configFile w) (fs w) (cache w) (clock w) (trace w ++ [IoCacheRead])).

(** The module state after the assignment of line 34. *)
Definition entered (wd : string) (st : ModuleState) : ModuleState :=
  mkState (reposConfig st) (currentCategory st) (Some wd) (autoDiscoveredRepos st).

Section WithLocale.

(** [String.prototype.localeCompare] of the runtime. *)
Variable localeCompare : string -> string -> Z.

(** [(a, b) => a.name.localeCompare(b.name)] *)
Definition byName (a b : GitRepository) : Z :=
  localeCompare (Scanner.name a) (Scanner.name b).

Definition setRepos (st : ModuleState) (wd : string) (repos : list GitRepository)
    : ModuleState :=
  mkState (reposConfig st) (currentCategory st) (Some wd)
          (JsArray.sort byName repos).

(** [loadConfig(options)]; [refreshReposCache] is the option. *)
Definition loadConfig (refreshReposCache : bool) (st : ModuleState) (w : World)
    : outcome unit * ModuleState * World :=
  let config := readConfig (configFile w) in
  if truthy (cfg_workingDirectory config) then
    let wd := match cfg_workingDirectory config with Some s => s | None => "" end in
    let st1 := entered wd st in
    if negb (existsSync w wd) then (Throw, st1, w)
    else if refreshReposCache then
      let (repos, w1) := scanWorld w wd in
      let w2 := writeWorld w1 wd repos in
      (Return tt, setRepos st1 wd repos, w2)
    else
      let (cached, w1) := readWorld w wd in
      match cached with
      | Throw => (Throw, st1, w1)
      | Return (Some repos) => (Return tt, setRepos st1 wd repos, w1)
      | Return None =>
          let (repos, w2) := scanWorld w1 wd in
          let w3 := writeWorld w2 wd repos in
          (Return tt, setRepos st1 wd repos, w3)
      end
  else
    (Return tt,
     mkState (cfg_repos config) (currentCategory st) (workingDirectory st)
             (autoDiscoveredRepos st),
     w).


(** [getAllProjects()] *)
Definition getAllProjects (st : ModuleState) : list Project :=
  if truthy (workingDirectory st) then
    map (fun repo =>
           mkProject (topLevelFolder repo) (Scanner.name repo) (Scanner.path repo)
                     (Scanner.name repo ++ " (" ++ Scanner.path repo ++ ")"))
        (autoDiscoveredRepos st)
  else
    match reposConfig st with
    | None => []
    | Some cfg =>
        flat_map (fun cp : string * list (string * string) =>
                    let (cat, projects) := cp in
                    map (fun np : string * string =>
                           let (n, p) := np in
                           mkProject cat n p (n ++ " (" ++ cat ++ ")"))
                        projects)
                 cfg
    end.

(** [input.toLowerCase().trim().split(/\s+/)] *)
Definition keywords (input : string) : list string :=
  Str.split_ws (Str.trim (Str.toLowerCase input)).

(** The template [`${project.name} ${project.category} ${project.path}`],
    in lower case. *)
Definition searchText (p : Project) : string :=
  Str.toLowerCase (name p ++ " " ++ category p ++ " " ++ path p).

(** [filteredProjects] of [searchAllProjects] (lines 143-150). *)
Definition filterProjects (allProjects : list Project) (input : string)
    : list Project :=
  if negb (String.eqb input "") then
    let kws := keywords input in
    filter (fun project =>
              forallb (fun keyword => Str.includes (searchText project) keyword) kws)
           allProjects
  else allProjects.

(** The [Map] of the grouping: keys in the order of first insertion. *)
Fixpoint groupPush (grouped : list (string * list Project)) (p : Project)
    : list (string * list Project) :=
  match grouped with
  | [] => [(category p, [p])]
  | (c, ps) :: rest =>
      if String.eqb c (category p) then (c, (ps ++ [p])%list) :: rest
      else (c, ps) :: groupPush rest p
  end.

Definition groupByCategory (projects : list Project) : list (string * list Project) :=
  fold_left groupPush projects [].

Fixpoint mapGet (grouped : list (string * list Project)) (c : string) : list Project :=
  match grouped with
  | [] => []
  | (k, ps) :: rest => if String.eqb k c then ps else mapGet rest c
  end.

(** The comparator of lines 185-189. *)
Definition categoryOrder (a b : string) : Z :=
  if String.eqb a "/" then 1%Z
  else if String.eqb b "/" then 1%Z
  else localeCompare a b.

Definition sortedCategories (projects : list Project) : list string :=
  JsArray.sort categoryOrder (map fst (groupByCategory projects)).

Definition separatorRow (c : string) : Row :=
  let categoryLabel := if String.eqb c "/" then "/ (root)" else c in
  mkRow ("---------  " ++ categoryLabel ++ "  ---------") None (Some "separator").

Definition projectRow (p : Project) : Row :=
  mkRow ("  " ++ display p) (Some p) None.

(** [formatProjectsWithSeparators(projects)] *)
Definition formatProjectsWithSeparators (projects : list Project) : list Row :=
  let grouped := groupByCategory projects in
  flat_map (fun c => separatorRow c :: map projectRow (mapGet grouped c))
           (sortedCategories projects).

(** [searchAllProjects(_answers, input)] *)
Definition searchAllProjects (st : ModuleState) (input : string) : list Row :=
  let filteredProjects := filterProjects (getAllProjects st) input in
  if truthy (workingDirectory st) then formatProjectsWithSeparators filteredProjects
  else map (fun p => mkRow (display p) (Some p) None) filteredProjects.

(** The labels of the separator rows of a rendered list, in order. *)
Definition separatorLabels (rows : list Row) : list string :=
  map row_name
      (filter (fun r => match row_disabled r with Some _ => true | None => false end)
              rows).

End WithLocale.

End Ide.

(** ** Views of a scan used to state its properties *)

Module Walk.
Import Fs Scanner.

(** The loop of lines 127-137 as a function of its own. *)
Fixpoint eachEntry (workingDirectory dir topLevelFolder : string)
    (es : list (string * node)) (repositories : list GitRepository)
    : list GitRepository :=
  match es with
  | [] => repositories
  | (entry_name, entry) :: rest =>
      match entry with
      | Dir _ _ =>
          eachEntry workingDirectory dir topLevelFolder rest
            (scanDirectory workingDirectory (Path.join dir entry_name)
               (if String.eqb dir workingDirectory then entry_name else topLevelFolder)
               entry repositories)
      | _ => eachEntry workingDirectory dir topLevelFolder rest repositories
      end
  end.

(** The repositories found at or below [x], from an empty array. *)
Definition found (wd dir tlf : string) (x : node) : list GitRepository :=
  scanDirectory wd dir tlf x [].

Definition foundIn (wd dir tlf : string) (ne : string * node) : list GitRepository :=
  match snd ne with
  | Dir _ _ =>
      found wd (Path.join dir (fst ne))
            (if String.eqb dir wd then fst ne else tlf) (snd ne)
  | _ => []
  end.

(** The chains of entry names that lead from [x] to the directories the
    scan reports, in the order of the scan. *)
Fixpoint repoChains (x : node) : list (list string) :=
  match x with
  | Dir perm entries =>
      if existsSync_git perm entries then [[]]
      else
        match perm with
        | Open =>
            flat_map (fun ne : string * node =>
                        match snd ne with
                        | Dir _ _ => map (cons (fst ne)) (repoChains (snd ne))
                        | _ => []
                        end) entries
        | _ => []
        end
  | _ => []
  end.

Fixpoint nodupb (l : list string) : bool :=
  match l with
  | [] => true
  | s :: r => negb (existsb (String.eqb s) r) && nodupb r
  end.

(** A well-formed tree: in every directory the entry names are proper
    path segments and no name occurs twice. *)
Fixpoint wellFormed (x : node) : bool :=
  match x with
  | Dir _ entries =>
      forallb Path.segmentb (map fst entries)
      && nodupb (map fst entries)
      && forallb (fun ne : string * node => wellFormed (snd ne)) entries
  | _ => true
  end.

(** [q] lies strictly below [p]: it is reached from [p] through one or
    more entry names. *)
Definition strictDescendant (p q : string) : Prop :=
  exists names, names <> [] /\ Forall Path.segment names /\ q = Path.joins p names.

(** The entry at a position: [i :: pos] is the [i]-th entry of the
    directory, then [pos] below it. *)
Fixpoint entryAt (pos : list nat) (x : node) : option (string * node) :=
  match pos, x with
  | i :: pos', Dir _ entries =>
      match nth_error entries i with
      | Some (n, c) =>
          match pos' with
          | [] => Some (n, c)
          | _ => entryAt pos' c
          end
      | None => None
      end
  | _, _ => None
  end.

Fixpoint dropNth (A : Type) (i : nat) (l : list A) : list A :=
  match i, l with
  | _, [] => []
  | O, _ :: r => r
  | S j, a :: r => a :: dropNth j r
  end.

Fixpoint changeNth (A : Type) (i : nat) (f : A -> A) (l : list A) : list A :=
  match i, l with
  | _, [] => []
  | O, a :: r => f a :: r
  | S j, a :: r => a :: changeNth j f r
  end.

(** The tree without the entry at a position. *)
Fixpoint removeAt (pos : list nat) (x : node) : node :=
  match pos, x with
  | [i], Dir perm entries => Dir perm (dropNth i entries)
  | i :: pos', Dir perm entries =>
      Dir perm (changeNth i (fun ne => (fst ne, removeAt pos' (snd ne))) entries)
  | _, _ => x
  end.

(** Whether an entry named [.git] counts as a marker: every object
    does, except a link whose target does not resolve. *)
Definition live (x : node) : bool :=
  match x with
  | Symlink _ l => l
  | _ => true
  end.

End Walk.

(** ** The scanner over a file system in which links lead somewhere *)

Module Linked.
Import Scanner.

(** An object of the file system. A symbolic link holds the absolute
    path of its target, as the names from the file system root; the
    target may be anywhere, an ancestor of the link included. *)
Inductive obj :=
| LFile
| LLink (target : list string)
| LDir (perm : Fs.access) (entries : list (string * obj)).

Fixpoint lookup (name : string) (entries : list (string * obj)) : option obj :=
  match entries with
  | [] => None
  | (n, x) :: rest => if String.eqb n name then Some x else lookup name rest
  end.

(** The entry [n] of [x], for a process that may search [x]. *)
Definition child (x : obj) (n : string) : option obj :=
  match x with
  | LDir Fs.Closed _ => None
  | LDir _ entries => lookup n entries
  | _ => None
  end.

(** [Dirent.isDirectory()]: the type of the entry itself. *)
Definition isDirectory (x : obj) : bool :=
  match x with
  | LDir _ _ => true
  | _ => false
  end.

(** The string of an absolute path. *)
Definition pathString (path : list string) : string := Path.joins "/" path.

(** The number of links the system follows while it resolves one path. *)
Definition maxLinks : nat := 40.

Section World.

(** The root directory of the file system. *)
Variable world : obj.

(** Path resolution from [cur] along [path]: every name is looked up in
    the directory reached so far, and a link met on the way, the last
    name included, is replaced by its target; [follow] resolves the
    path that results. *)
Fixpoint walkWith (follow : list string -> option obj) (cur : obj)
    (path : list string) {struct path} : option obj :=
  match path with
  | [] => Some cur
  | n :: rest =>
      match child cur n with
      | None => None
      | Some (LLink target) => follow (target ++ rest)%list
      | Some x => walkWith follow x rest
      end
  end.

(** Resolution with a bound on the links followed; beyond it the system
    gives up. *)
Fixpoint resolveWith (budget : nat) (path : list string) {struct budget} : option obj :=
  walkWith (match budget with
            | O => fun _ => None
            | S b => resolveWith b
            end) world path.

Definition resolve (path : list string) : option obj := resolveWith maxLinks path.

(** [existsSync(path)]: the path resolves. *)
Definition existsSync (path : list string) : bool :=
  match resolve path with
  | Some _ => true
  | None => false
  end.

(** [readdirSync(path, { withFileTypes: true })]: the entries of the
    directory the path resolves to; [None] when it raises (no such
    directory, not a directory, no permission to list). *)
Definition readdirSync (path : list string) : option (list (string * obj)) :=
  match resolve path with
  | Some (LDir Fs.Open entries) => Some entries
  | _ => None
  end.

(** [scanDirectory(dir, topLevelFolder)] of util.ts 112-142, on paths;
    [repositories] is the array, [fuel] bounds the depth of the calls and
    [None] says that it did not suffice. *)
Fixpoint scanDirectory (fuel : nat) (workingDirectory dir : list string)
    (topLevelFolder : string) (repositories : list GitRepository)
    {struct fuel} : option (list GitRepository) :=
  match fuel with
  | O => None
  | S fuel' =>
      if existsSync (dir ++ [".git"])%list then
        Some (repositories ++
              [mkRepo (Path.basename (pathString dir)) (pathString dir) topLevelFolder])%list
      else
        match readdirSync dir with
        | None => Some repositories
        | Some entries =>
            (fix each (es : list (string * obj)) (repositories : list GitRepository)
                 {struct es} : option (list GitRepository) :=
               match es with
               | [] => Some repositories
               | (entry_name, entry) :: rest =>
                   if isDirectory entry then
                     let fullPath := (dir ++ [entry_name])%list in
                     let isTopLevel :=
                       String.eqb (pathString dir) (pathString workingDirectory) in
                     let currentTopLevel :=
                       if isTopLevel then entry_name else topLevelFolder in
                     match scanDirectory fuel' workingDirectory fullPath
                                         currentTopLevel repositories with
                     | None => None
                     | Some repositories' => each rest repositories'
                     end
                   else each rest repositories
               end) entries repositories
        end
  end.

(** [findGitRepositories(workingDirectory)] *)
Definition findGitRepositories (fuel : nat) (workingDirectory : list string)
    : option (list GitRepository) :=
  scanDirectory fuel workingDirectory workingDirectory rootSentinel [].

End World.

(** The loop of lines 127-137 as a function of its own, over the calls
    of [scanDirectory] with [fuel]. *)
Fixpoint eachEntry (world : obj) (fuel : nat) (workingDirectory dir : list string)
    (topLevelFolder : string) (es : list (string * obj))
    (repositories : list GitRepository) : option (list GitRepository) :=
  match es with
  | [] => Some repositories
  | (entry_name, entry) :: rest =>
      if isDirectory entry then
        match scanDirectory world fuel workingDirectory (dir ++ [entry_name])%list
                (if String.eqb (pathString dir) (pathString workingDirectory)
                 then entry_name else topLevelFolder)
                repositories with
        | None => None
        | Some repositories' =>
            eachEntry world fuel workingDirectory dir topLevelFolder rest repositories'
        end
      else eachEntry world fuel workingDirectory dir topLevelFolder rest repositories
  end.

(** The depth of the real directories below [x]; what is behind a link
    does not count. *)
Fixpoint height (x : obj) : nat :=
  match x with
  | LDir _ entries => S (list_max (map (fun ne : string * obj => height (snd ne)) entries))
  | _ => 0
  end.

(** No name occurs twice in a directory. *)
Fixpoint wellFormed (x : obj) : bool :=
  match x with
  | LDir _ entries =>
      Walk.nodupb (map fst entries)
      && forallb (fun ne : string * obj => wellFormed (snd ne)) entries
  | _ => true
  end.

(** [chain] leads from [x] down through entries that are real
    directories. *)
Fixpoint viaDirectories (chain : list string) (x : obj) : bool :=
  match chain, x with
  | [], LDir _ _ => true
  | n :: rest, LDir _ entries =>
      existsb (fun ne : string * obj =>
                 String.eqb (fst ne) n && viaDirectories rest (snd ne)) entries
  | _, _ => false
  end.

(** What the scanner can observe of the object [x] found at [path]: its
    real directories and files as they are, and of a link only whether
    its path resolves. *)
Fixpoint view (world : obj) (path : list string) (x : obj) {struct x} : Fs.node :=
  match x with
  | LFile => Fs.File
  | LLink target => Fs.Symlink (pathString target) (existsSync world path)
  | LDir perm entries =>
      Fs.Dir perm
        (map (fun ne : string * obj =>
                (fst ne, view world (path ++ [fst ne])%list (snd ne))) entries)
  end.

(** What a resolution says about the path with one more name: nothing
    when the resolved object has no such entry, the entry when it is not
    a link. *)
Definition extends (f : list string -> option obj) : Prop :=
  forall path n x,
    f path = Some x ->
    match child x n with
    | None => f (path ++ [n])%list = None
    | Some (LLink _) => True
    | Some y => f (path ++ [n])%list = Some y
    end.

End Linked.

(** ** Sample inputs *)

Module Sample.
Import Fs Scanner Cache Ide.

(** A comparison of strings by character codes, where a concrete
    [localeCompare] is needed. *)
Definition codeCompare (a b : string) : Z :=
  match String.compare a b with
  | Lt => (-1)%Z
  | Eq => 0%Z
  | Gt => 1%Z
  end.

Definition repoDir : node := Dir Open [(".git", Dir Open [])].

(** /work/a/.git, /work/b/.git, /work/c/sub/.git. *)
Definition flat : node :=
  Dir Open [("a", repoDir); ("b", repoDir); ("c", Dir Open [("sub", repoDir)])].

(** /r/outer/.git and /r/outer/inner/.git. *)
Definition nested : node :=
  Dir Open [("outer", Dir Open [(".git", Dir Open []); ("inner", repoDir)])].

(** /r/a/.git, /r/b without permission, /r/c/.git. *)
Definition unreadable_sibling : node :=
  Dir Open [("a", repoDir); ("b", Dir Closed [("x", repoDir)]); ("c", repoDir)].

(** /r/a/.git, /r/b/.git with /r/b searchable but not listable,
    /r/c/.git. *)
Definition unlistable_repo : node :=
  Dir Open [("a", repoDir); ("b", Dir SearchOnly [(".git", Dir Open [])]);
            ("c", repoDir)].

(** The tree of the requirements document, below /dev:
    work/project-a/.git, personal/my-app/.git and standalone-repo/.git. *)
Definition devTree : node :=
  Dir Open [("work", Dir Open [("project-a", repoDir)]);
            ("personal", Dir Open [("my-app", repoDir)]);
            ("standalone-repo", repoDir)].

(** /w/tools/x/.git, /w/ai/bot/.git and /w/web/shop/.git, listed in
    that order. *)
Definition folders : node :=
  Dir Open [("tools", Dir Open [("x", repoDir)]);
            ("ai", Dir Open [("bot", repoDir)]);
            ("web", Dir Open [("shop", repoDir)])].

(** /x with one repository, /x/app. *)
Definition xTree : node := Dir Open [("app", repoDir); ("notes.txt", File)].

Definition xFs (p : string) : option node :=
  if String.eqb p "/x" then Some xTree else None.

(** A stale snapshot for /x with no repository. *)
Definition staleCache : cacheFile :=
  ParsedObject (JNum 1) (JStr "/x") (JNum 1700000000000) (JArray []).

Definition xConfig (manual : option ReposConfig) : HshConfig :=
  mkConfig (Some "/x") manual.

Definition staleWorld : World := mkWorld (xConfig None) xFs staleCache 1700000005000 [].

Definition coldWorld : World := mkWorld (xConfig None) xFs Missing 1700000005000 [].

Definition manualA : ReposConfig := [("web", [("shop", "/srv/shop")])].
Definition manualB : ReposConfig := [("ops", [("infra", "/srv/infra"); ("ci", "/srv/ci")])].

(** A file system with links: /r/loop -> /r and /r/a/back -> /r/a lead
    back to their ancestors, /r/ext -> /srv/repos leads to a directory
    that holds the repository /srv/repos/hidden, and /home -> /r is a
    link to the directory that is scanned; /r/a/p is a repository. *)
Definition linkedRepo : Linked.obj :=
  Linked.LDir Open [(".git", Linked.LDir Open [])].

Definition linkedDir : Linked.obj :=
  Linked.LDir Open
    [("loop", Linked.LLink ["r"]);
     ("a", Linked.LDir Open [("back", Linked.LLink ["r"; "a"]); ("p", linkedRepo)]);
     ("ext", Linked.LLink ["srv"; "repos"])].

Definition linkedWorld : Linked.obj :=
  Linked.LDir Open
    [("r", linkedDir);
     ("srv", Linked.LDir Open [("repos", Linked.LDir Open [("hidden", linkedRepo)])]);
     ("home", Linked.LLink ["r"])].

End Sample.

(** ** Comparators *)

Module Cmp.

Section On.
Variable A : Type.

(** The elements the comparator is used on. *)
Variable P : A -> Prop.
Variable comparefn : A -> A -> Z.

(** [a] sorts before [b]. *)
Definition before (a b : A) : Prop := (comparefn a b < 0)%Z.

(** [b] does not sort before [a]. *)
Definition notAfter (a b : A) : Prop := (0 <= comparefn b a)%Z.

(** A comparator that orders the elements of [P] consistently: what a
    consistent comparison function of [Array.prototype.sort] gives. *)
Record consistentOn : Prop := mkConsistent {
  notAfter_trans :
    forall a b c, P a -> P b -> P c -> notAfter a b -> notAfter b c -> notAfter a c;
  before_notAfter_trans :
    forall a b c, P a -> P b -> P c -> before a b -> notAfter b c -> before a c;
  before_notAfter :
    forall a b, P a -> P b -> before a b -> notAfter a b
}.

(** The two relations on the elements of [P] only. *)
Definition notAfterOn (a b : A) : Prop := P a /\ P b /\ notAfter a b.
Definition beforeOn (a b : A) : Prop := P a /\ P b /\ before a b.

End On.

(** A comparator that is consistent on every value. *)
Definition consistent (A : Type) (comparefn : A -> A -> Z) : Prop :=
  consistentOn (fun _ => True) comparefn.

(** The comparison of two strings by their lengths: a consistent
    comparator at hand for concrete inputs. *)
Definition byLength (a b : string) : Z :=
  (Z.of_nat (String.length a) - Z.of_nat (String.length b))%Z.

End Cmp.

(** ** Views of the picker rows *)

Module Rows.
Import Ide.

(** The catalog entries of the selectable rows of a list, in order. *)
Definition rowProjects (rows : list Row) : list Project :=
  flat_map (fun r => match row_value r with Some p => [p] | None => [] end) rows.

(** The entries of a catalog that have category [c], in catalog order. *)
Definition ofCategory (c : string) (projects : list Project) : list Project :=
  filter (fun p => String.eqb (category p) c) projects.

End Rows.

(** ** Views of a search string *)

Module Blank.

(** A string of white space only (the empty string included). *)
Fixpoint allSpaces (s : string) : bool :=
  match s with
  | EmptyString => true
  | String c r => Str.is_space c && allSpaces r
  end.

End Blank.

(** ** Selections from a list *)

Module Selection.

Section Kept.
Variable A : Type.
Variable P : A -> Prop.

(** [kept l found]: [found] is [l] with the elements that satisfy [P]
    kept, each as often as it occurs and in the order of [l], and the
    others left out. *)
Inductive kept : list A -> list A -> Prop :=
| kept_nil : kept [] []
| kept_take (a : A) (l found : list A) : P a -> kept l found -> kept (a :: l) (a :: found)
| kept_drop (a : A) (l found : list A) : ~ P a -> kept l found -> kept (a :: l) found.

End Kept.

End Selection.

(** ** The two-step selection ([searchCategories], [searchProjects]) *)

Module TwoStep.
Import Ide.

(** [if (!reposConfig) { await loadConfig(); }] *)
Definition ensureLoaded (localeCompare : string -> string -> Z)
    (st : ModuleState) (w : World) : outcome unit * ModuleState * World :=
  match reposConfig st with
  | None => loadConfig localeCompare false st w
  | Some _ => (Return tt, st, w)
  end.

(** [searchCategories(_answers, input)]; [Object.keys] of an undefined
    [reposConfig] raises. *)
Definition searchCategories (localeCompare : string -> string -> Z)
    (st : ModuleState) (w : World) (input : string)
    : outcome (list string) * ModuleState * World :=
  let '(r, st1, w1) := ensureLoaded localeCompare st w in
  match r with
  | Throw => (Throw, st1, w1)
  | Return _ =>
      match reposConfig st1 with
      | None => (Throw, st1, w1)
      | Some cfg =>
          let categories := map fst cfg in
          if String.eqb input "" then (Return categories, st1, w1)
          else
            (Return (filter (fun category =>
                               Str.includes (Str.toLowerCase category)
                                            (Str.toLowerCase input))
                            categories),
             st1, w1)
      end
  end.

(** [reposConfig[currentCategory]] *)
Fixpoint categoryProjects (cfg : ReposConfig) (c : string)
    : option (list (string * string)) :=
  match cfg with
  | [] => None
  | (k, projects) :: rest =>
      if String.eqb k c then Some projects else categoryProjects rest c
  end.

(** [searchProjects(_answers, input)]: the names of the projects of the
    current category. *)
Definition searchProjects (localeCompare : string -> string -> Z)
    (st : ModuleState) (w : World) (input : string)
    : outcome (list string) * ModuleState * World :=
  let '(r, st1, w1) := ensureLoaded localeCompare st w in
  match r with
  | Throw => (Throw, st1, w1)
  | Return _ =>
      if negb (truthy (currentCategory st1)) then (Return [], st1, w1)
      else
        let cat := match currentCategory st1 with Some c => c | None => "" end in
        match reposConfig st1 with
        | None => (Throw, st1, w1)
        | Some cfg =>
            match categoryProjects cfg cat with
            | None => (Return [], st1, w1)
            | Some projects =>
                if String.eqb input "" then (Return (map fst projects), st1, w1)
                else
                  let searchTerm := Str.toLowerCase input in
                  (Return
                     (map fst
                        (filter (fun project : string * string =>
                                   Str.includes (Str.toLowerCase (fst project)) searchTerm
                                   || Str.includes (Str.toLowerCase (snd project)) searchTerm)
                                projects)),
                   st1, w1)
            end
        end
  end.

End TwoStep.

(** ** The outermost repositories of a tree *)

Module Outer.
Import Fs.

(** The directory reached from [x] through [chain] shows a repository
    marker, and every directory on the way to it can be listed and shows
    none. *)
Fixpoint outermostRepo (chain : list string) (x : node) : bool :=
  match chain, x with
  | [], Dir perm entries => existsSync_git perm entries
  | n :: rest, Dir Open entries =>
      negb (existsSync_git Open entries)
      && existsb (fun ne : string * node =>
                    String.eqb (fst ne) n && outermostRepo rest (snd ne)) entries
  | _, _ => false
  end.

End Outer.

(** ** The bookmark search ([searchUrls], src/commands/url.ts) *)

Module Url.

(** A choice of the bookmark prompt: [{ name: display, value: { name, url } }]. *)
Record Choice := mkChoice {
  choice_label : string;
  choice_name : string;
  choice_url : string
}.

Definition toChoice (entry : string * string) : Choice :=
  mkChoice (fst entry ++ " - " ++ snd entry) (fst entry) (snd entry).

(** [searchUrls(_answers, input)]; [urls] is [config.urls] as
    [Object.entries] lists it, [None] when the configuration has none. *)
Definition searchUrls (urls : option (list (string * string))) (input : string)
    : list Choice :=
  let entries := match urls with Some u => u | None => [] end in
  if String.eqb input "" then map toChoice entries
  else
    let keywords := Str.split_ws (Str.trim (Str.toLowerCase input)) in
    map toChoice
        (filter (fun entry : string * string =>
                   let searchText := Str.toLowerCase (fst entry ++ " " ++ snd entry) in
                   forallb (fun keyword => Str.includes searchText keyword) keywords)
                entries).

End Url.

(** ** The title of a merge request ([createMR], src/commands/git.ts) *)

Module Git.

(** [s.split('/')]; [cur] is the piece read so far. *)
Fixpoint split_from (cur s : string) : list string :=
  match s with
  | EmptyString => [cur]
  | String c r =>
      if Ascii.eqb c Path.slash then cur :: split_from "" r
      else split_from (cur ++ String c "") r
  end.

Definition split (s : string) : list string := split_from "" s.

(** [defaultTitle] of lines 31-39. *)
Definition defaultTitle (currentBranch : string) : string :=
  match split currentBranch with
  | commitType :: jiraNumber :: _ => commitType ++ ": " ++ jiraNumber
  | _ => ""
  end.

(** [fullTitle] of line 57, [title] being the answer of the prompt. *)
Definition fullTitle (currentBranch title : string) : string :=
  let d := defaultTitle currentBranch in
  if String.eqb d "" then title else d ++ " " ++ title.

End Git.
(** * Properties *)

(** ** Facts about strings *)

Module StrFacts.
Import Str.

Lemma append_nil_r (s : string) : s ++ "" = s.
Proof. induction s as [|c s IH]; simpl; [reflexivity | now rewrite IH]. Qed.

Lemma append_assoc (a b c : string) : (a ++ b) ++ c = a ++ (b ++ c).
Proof. induction a as [|x a IH]; simpl; [reflexivity | now rewrite IH]. Qed.

Lemma append_inv_head (a b c : string) : a ++ b = a ++ c -> b = c.
Proof. induction a as [|x a IH]; simpl; intros H; [exact H | injection H; auto]. Qed.

Lemma length_append (a b : string) :
  String.length (a ++ b) = String.length a + String.length b.
Proof. induction a as [|x a IH]; simpl; [reflexivity | now rewrite IH]. Qed.

Lemma startsWith_spec (s k : string) :
  startsWith s k = true <-> exists post, s = k ++ post.
Proof.
  revert s; induction k as [|a k IH]; intros s; simpl.
  - split; [intros _; now exists s | intros _; now destruct s].
  - destruct s as [|b s].
    + split; [discriminate | intros [post H]; discriminate].
    + simpl. rewrite andb_true_iff, Ascii.eqb_eq, IH. split.
      * intros [-> [post ->]]. now exists post.
      * intros [post H]. injection H as -> ->. split; [reflexivity | now exists post].
Qed.

(** [includes] is the substring relation. *)
Lemma includes_spec (s k : string) :
  includes s k = true <-> exists pre post, s = pre ++ k ++ post.
Proof.
  induction s as [|b s IH].
  - cbn [includes]. rewrite orb_false_r, startsWith_spec. split.
    + intros [post H]. now exists "", post.
    + intros [pre [post H]]. destruct pre; simpl in H.
      * now exists post.
      * discriminate.
  - cbn [includes]. rewrite orb_true_iff, startsWith_spec, IH. split.
    + intros [[post H] | [pre [post H]]].
      * now exists "", post.
      * exists (String b pre), post. simpl. now rewrite H.
    + intros [pre [post H]]. destruct pre as [|c pre]; simpl in H.
      * left. now exists post.
      * right. injection H as _ ->. now exists pre, post.
Qed.

End StrFacts.

(** ** The scenarios of the specification *)

Module ScannerExamples.
Import Fs Scanner Sample.

Example flat_discovery :
  findGitRepositories "/work" flat =
  [mkRepo "a" "/work/a" "a"; mkRepo "b" "/work/b" "b"; mkRepo "sub" "/work/c/sub" "c"].
Proof. reflexivity. Qed.

(** /r/outer/.git and /r/outer/inner/.git. *)
Example nested_repo_suppressed :
  findGitRepositories "/r" nested = [mkRepo "outer" "/r/outer" "outer"].
Proof. reflexivity. Qed.

(** /r/a/.git, /r/b without permission, /r/c/.git. *)
Example unreadable_sibling_skipped :
  findGitRepositories "/r" unreadable_sibling =
  [mkRepo "a" "/r/a" "a"; mkRepo "c" "/r/c" "c"].
Proof. reflexivity. Qed.

End ScannerExamples.

Module SortExamples.

Example sort_numbers :
  JsArray.sort Z.sub [3; 1; 2; 5; 4; 0]%Z = [0; 1; 2; 3; 4; 5]%Z.
Proof. reflexivity. Qed.

Example sort_descending_run :
  JsArray.sort Z.sub [5; 4; 3; 7; 1]%Z = [1; 3; 4; 5; 7]%Z.
Proof. reflexivity. Qed.

End SortExamples.

(** ** The cache store *)

Module CacheFacts.
Import Scanner Cache.

Lemma read_after_write now wd repos :
  readIdeReposCache wd (writeIdeReposCache now wd repos) = Return (Some repos).
Proof.
  unfold writeIdeReposCache, readIdeReposCache, readBody. simpl.
  now rewrite String.eqb_refl.
Qed.

Lemma read_total wd f : exists r, readIdeReposCache wd f = Return r.
Proof.
  unfold readIdeReposCache. destruct f; try (eexists; reflexivity).
  destruct (readBody wd _); eexists; reflexivity.
Qed.

Lemma read_hit_inv wd f l :
  readIdeReposCache wd f = Return (Some l) ->
  exists u, f = ParsedObject (JNum currentVersion) (JStr wd) u (JArray l).
Proof.
  unfold readIdeReposCache, readBody.
  destruct f as [| | | |v d u r]; try discriminate.
  destruct v as [| | |n| | |]; simpl; try discriminate.
  destruct (Z.eqb_spec n currentVersion) as [->|]; simpl; try discriminate.
  destruct d as [| | | |s| |]; simpl; try discriminate.
  destruct (String.eqb_spec s wd) as [->|]; simpl; try discriminate.
  destruct r; try discriminate.
  intros H. injection H as ->. now exists u.
Qed.

End CacheFacts.

(** C4. [readIdeReposCache wd] returns the cached list [l] if and only if
    the cache file exists, parses to an object, has [version] equal to the
    schema version 1, has [workingDirectory] equal to [wd] and has the
    array [l] as [repos]; in every other case, a missing, unparsable or
    wrongly shaped file included, it returns the miss [null]; it never
    raises. *)
Theorem C4_read_hit_iff_valid_snapshot (wd : string) (f : Cache.cacheFile) :
  (forall l,
      Cache.readIdeReposCache wd f = Return (Some l) <->
      exists u, f = Cache.ParsedObject (Cache.JNum 1) (Cache.JStr wd) u (Cache.JArray l))
  /\ (Cache.readIdeReposCache wd f = Return None \/
      exists u l, f = Cache.ParsedObject (Cache.JNum 1) (Cache.JStr wd) u (Cache.JArray l))
  /\ Cache.readIdeReposCache wd f <> Throw.
Proof.
  split; [|split].
  - intros l. split.
    + apply CacheFacts.read_hit_inv.
    + intros [u ->]. unfold Cache.readIdeReposCache, Cache.readBody. simpl.
      now rewrite String.eqb_refl.
  - destruct (CacheFacts.read_total wd f) as [[l|] H].
    + right. destruct (CacheFacts.read_hit_inv _ _ H) as [u ->]. now exists u, l.
    + now left.
  - destruct (CacheFacts.read_total wd f) as [r ->]. discriminate.
Qed.

(** ** Loading the catalog *)

Module LoadFacts.
Import Scanner Cache Ide.

Lemma readConfig_workingDirectory c :
  cfg_workingDirectory (readConfig c) = cfg_workingDirectory c.
Proof.
  unfold readConfig. destruct (cfg_repos c); [reflexivity|].
  destruct (truthy (cfg_workingDirectory c)); reflexivity.
Qed.

Lemma truthy_some wd : wd <> "" -> truthy (Some wd) = true.
Proof. intros H. simpl. now destruct (String.eqb_spec wd ""). Qed.

Section Configured.
Variable localeCompare : string -> string -> Z.
Variables (w : World) (wd : string) (root : Fs.node).
Hypothesis Hcfg : cfg_workingDirectory (configFile w) = Some wd.
Hypothesis Hwd : wd <> "".
Hypothesis Hroot : fs w wd = Some root.

Lemma loadConfig_refresh st :
  loadConfig localeCompare true st w =
  (Return tt,
   setRepos localeCompare (entered wd st) wd (findGitRepositories wd root),
   mkWorld (configFile w) (fs w)
           (writeIdeReposCache (clock w) wd (findGitRepositories wd root))
           (clock w) ((trace w ++ [IoScan wd]) ++ [IoCacheWrite])).
Proof.
  unfold loadConfig. rewrite readConfig_workingDirectory, Hcfg, truthy_some by assumption.
  unfold existsSync, scanWorld, writeWorld. rewrite Hroot. reflexivity.
Qed.

Lemma loadConfig_hit st repos :
  readIdeReposCache wd (cache w) = Return (Some repos) ->
  loadConfig localeCompare false st w =
  (Return tt,
   setRepos localeCompare (entered wd st) wd repos,
   mkWorld (configFile w) (fs w) (cache w) (clock w) (trace w ++ [IoCacheRead])).
Proof.
  intros Hread.
  unfold loadConfig. rewrite readConfig_workingDirectory, Hcfg, truthy_some by assumption.
  unfold existsSync, readWorld. rewrite Hroot, Hread. reflexivity.
Qed.

Lemma loadConfig_miss st :
  readIdeReposCache wd (cache w) = Return None ->
  loadConfig localeCompare false st w =
  (Return tt,
   setRepos localeCompare (entered wd st) wd (findGitRepositories wd root),
   mkWorld (configFile w) (fs w)
           (writeIdeReposCache (clock w) wd (findGitRepositories wd root))
           (clock w)
           (((trace w ++ [IoCacheRead]) ++ [IoScan wd]) ++ [IoCacheWrite])).
Proof.
  intros Hread.
  unfold loadConfig. rewrite readConfig_workingDirectory, Hcfg, truthy_some by assumption.
  unfold existsSync, readWorld, scanWorld, writeWorld. rewrite Hroot, Hread.
  simpl. rewrite Hroot. reflexivity.
Qed.

End Configured.

End LoadFacts.



(** C6. With a working directory configured and present on disk, two
    default (non-refresh) loads in a row, the tree being the same for
    both, leave the same repository list in the module, and the second
    load only reads the cache, which the first one has filled if it was
    not valid: it performs no scan and no write. *)
Theorem C6_warm_on_miss_twice
    (localeCompare : string -> string -> Z)
    (st : Ide.ModuleState) (w : Ide.World) (wd : string) (root : Fs.node)
    (Hcfg : Ide.cfg_workingDirectory (Ide.configFile w) = Some wd)
    (Hwd : wd <> "")
    (Hroot : Ide.fs w wd = Some root) :
  let '(r1, st1, w1) := Ide.loadConfig localeCompare false st w in
  let '(r2, st2, w2) := Ide.loadConfig localeCompare false st1 w1 in
  r1 = Return tt /\ r2 = Return tt
  /\ Ide.fs w1 = Ide.fs w
  /\ Ide.autoDiscoveredRepos st2 = Ide.autoDiscoveredRepos st1
  /\ Ide.getAllProjects st2 = Ide.getAllProjects st1
  /\ Ide.trace w2 = (Ide.trace w1 ++ [Ide.IoCacheRead])%list
  /\ Ide.cache w2 = Ide.cache w1.
Proof.
  destruct (CacheFacts.read_total wd (Ide.cache w)) as [[l|] Hread].
  - rewrite (@LoadFacts.loadConfig_hit localeCompare w wd root Hcfg Hwd Hroot st l Hread).
    set (w1 := Ide.mkWorld _ _ _ _ _).
    rewrite (@LoadFacts.loadConfig_hit localeCompare w1 wd root Hcfg Hwd Hroot _ l Hread).
    repeat split; reflexivity.
  - rewrite (@LoadFacts.loadConfig_miss localeCompare w wd root Hcfg Hwd Hroot st Hread).
    set (w1 := Ide.mkWorld _ _ _ _ _).
    assert (Hhit : Cache.readIdeReposCache wd (Ide.cache w1) =
                   Return (Some (Scanner.findGitRepositories wd root)))
      by apply CacheFacts.read_after_write.
    rewrite (@LoadFacts.loadConfig_hit localeCompare w1 wd root Hcfg Hwd Hroot _ _ Hhit).
    repeat split; reflexivity.
Qed.

Lemma C6_warm_on_miss_witness :
  let '(r1, st1, w1) := Ide.loadConfig Sample.codeCompare false Ide.initialState Sample.coldWorld in
  let '(r2, st2, w2) := Ide.loadConfig Sample.codeCompare false st1 w1 in
  Ide.trace w1 = [Ide.IoCacheRead; Ide.IoScan "/x"; Ide.IoCacheWrite]
  /\ Ide.autoDiscoveredRepos st1 = [Scanner.mkRepo "app" "/x/app" "app"]
  /\ Ide.autoDiscoveredRepos st2 = Ide.autoDiscoveredRepos st1
  /\ Ide.trace w2 = (Ide.trace w1 ++ [Ide.IoCacheRead])%list.
Proof.
  pose proof (@C6_warm_on_miss_twice Sample.codeCompare Ide.initialState
                Sample.coldWorld "/x" Sample.xTree eq_refl) as H.
  assert (Hne : "/x" <> "") by discriminate.
  specialize (H Hne eq_refl).
  remember (Ide.loadConfig Sample.codeCompare false Ide.initialState Sample.coldWorld) as run1 eqn:E1.
  destruct run1 as [[r1 st1] w1].
  assert (Ht : Ide.trace w1 = [Ide.IoCacheRead; Ide.IoScan "/x"; Ide.IoCacheWrite]
               /\ Ide.autoDiscoveredRepos st1 = [Scanner.mkRepo "app" "/x/app" "app"]).
  { vm_compute in E1. injection E1 as _ -> ->. split; reflexivity. }
  destruct (Ide.loadConfig Sample.codeCompare false st1 w1) as [[r2 st2] w2].
  destruct H as (_ & _ & _ & Hs & _ & Htr & _).
  destruct Ht as [Ht1 Ht2].
  split; [exact Ht1 | split; [exact Ht2 | split; [exact Hs | exact Htr]]].
Defined.

Module CatalogFacts.
Import Scanner Cache Ide.

(** In auto-discovery mode the catalog is a function of the working
    directory flag and of the discovered list only. *)
Lemma getAllProjects_auto st st' :
  truthy (workingDirectory st) = true ->
  truthy (workingDirectory st') = true ->
  autoDiscoveredRepos st = autoDiscoveredRepos st' ->
  getAllProjects st = getAllProjects st'.
Proof.
  intros H1 H2 H. unfold getAllProjects. now rewrite H1, H2, H.
Qed.

Lemma searchAllProjects_auto localeCompare st st' input :
  truthy (workingDirectory st) = true ->
  truthy (workingDirectory st') = true ->
  autoDiscoveredRepos st = autoDiscoveredRepos st' ->
  searchAllProjects localeCompare st input = searchAllProjects localeCompare st' input.
Proof.
  intros H1 H2 H. unfold searchAllProjects.
  now rewrite (getAllProjects_auto _ _ H1 H2 H), H1, H2.
Qed.

End CatalogFacts.

(** C9. Two configurations that both set the same (non-empty) working
    directory and differ arbitrarily in their manual category map, loaded
    over the same tree and the same cache file, give the same catalog and
    the same picker rows for every search string; what the module held
    before, its manual map included, does not matter either. *)
Theorem C9_manual_map_ignored
    (localeCompare : string -> string -> Z) (refresh : bool)
    (st1 st2 : Ide.ModuleState) (w1 w2 : Ide.World) (wd : string) (root : Fs.node)
    (Hcfg1 : Ide.cfg_workingDirectory (Ide.configFile w1) = Some wd)
    (Hcfg2 : Ide.cfg_workingDirectory (Ide.configFile w2) = Some wd)
    (Hwd : wd <> "")
    (Hroot1 : Ide.fs w1 wd = Some root)
    (Hroot2 : Ide.fs w2 wd = Some root)
    (Hcache : Ide.cache w1 = Ide.cache w2) :
  let '(r1, s1, _) := Ide.loadConfig localeCompare refresh st1 w1 in
  let '(r2, s2, _) := Ide.loadConfig localeCompare refresh st2 w2 in
  r1 = Return tt /\ r2 = Return tt
  /\ Ide.getAllProjects s1 = Ide.getAllProjects s2
  /\ forall input,
       Ide.searchAllProjects localeCompare s1 input =
       Ide.searchAllProjects localeCompare s2 input.
Proof.
  assert (Ht : Ide.truthy (Some wd) = true) by now apply LoadFacts.truthy_some.
  destruct refresh.
  - rewrite (@LoadFacts.loadConfig_refresh localeCompare w1 wd root Hcfg1 Hwd Hroot1).
    rewrite (@LoadFacts.loadConfig_refresh localeCompare w2 wd root Hcfg2 Hwd Hroot2).
    split; [reflexivity|]. split; [reflexivity|]. split.
    + now apply CatalogFacts.getAllProjects_auto.
    + intros input. now apply CatalogFacts.searchAllProjects_auto.
  - destruct (CacheFacts.read_total wd (Ide.cache w1)) as [[l|] Hread1];
      pose proof Hread1 as Hread2; rewrite Hcache in Hread2.
    + rewrite (@LoadFacts.loadConfig_hit localeCompare w1 wd root Hcfg1 Hwd Hroot1 _ l Hread1).
      rewrite (@LoadFacts.loadConfig_hit localeCompare w2 wd root Hcfg2 Hwd Hroot2 _ l Hread2).
      split; [reflexivity|]. split; [reflexivity|]. split.
      * now apply CatalogFacts.getAllProjects_auto.
      * intros input. now apply CatalogFacts.searchAllProjects_auto.
    + rewrite (@LoadFacts.loadConfig_miss localeCompare w1 wd root Hcfg1 Hwd Hroot1 _ Hread1).
      rewrite (@LoadFacts.loadConfig_miss localeCompare w2 wd root Hcfg2 Hwd Hroot2 _ Hread2).
      split; [reflexivity|]. split; [reflexivity|]. split.
      * now apply CatalogFacts.getAllProjects_auto.
      * intros input. now apply CatalogFacts.searchAllProjects_auto.
Qed.

Lemma C9_manual_map_witness :
  let wA := Ide.mkWorld (Sample.xConfig (Some Sample.manualA)) Sample.xFs Cache.Missing 5 [] in
  let wB := Ide.mkWorld (Sample.xConfig (Some Sample.manualB)) Sample.xFs Cache.Missing 9 [] in
  let '(r1, s1, _) := Ide.loadConfig Sample.codeCompare false Ide.initialState wA in
  let '(r2, s2, _) := Ide.loadConfig Sample.codeCompare false Ide.initialState wB in
  Ide.getAllProjects s1 = Ide.getAllProjects s2
  /\ Ide.searchAllProjects Sample.codeCompare s1 "APP" =
     Ide.searchAllProjects Sample.codeCompare s2 "APP".
Proof.
  intros wA wB.
  assert (Hne : "/x" <> "") by discriminate.
  pose proof (@C9_manual_map_ignored Sample.codeCompare false Ide.initialState
                Ide.initialState wA wB "/x" Sample.xTree eq_refl eq_refl Hne
                eq_refl eq_refl eq_refl) as H.
  destruct (Ide.loadConfig Sample.codeCompare false Ide.initialState wA) as [[r1 s1] w1'].
  destruct (Ide.loadConfig Sample.codeCompare false Ide.initialState wB) as [[r2 s2] w2'].
  destruct H as (_ & _ & Hp & Hs).
  split; [exact Hp | exact (Hs "APP")].
Defined.

(** ** The separators of the picker *)

(** C1. The categories of the separators are meant to be in alphabetical
    order with the root category [/] last. The comparator answers 1 both
    when its first and when its second argument is [/], so a root
    category that is met first stays first: for a root repository
    followed by a repository of category [a], whatever [localeCompare]
    is, the separator of [/] is rendered before the separator of [a]. *)
Theorem C1_root_separator_not_last (localeCompare : string -> string -> Z) :
  Ide.separatorLabels
    (Ide.formatProjectsWithSeparators localeCompare
       [Ide.mkProject "/" "work" "/work" "work (/work)";
        Ide.mkProject "a" "x" "/work/a/x" "x (/work/a/x)"])
  = ["---------  / (root)  ---------"; "---------  a  ---------"].
Proof. reflexivity. Qed.

Module SeparatorExamples.
Import Scanner Cache Ide.

(** The same order through the whole picker: a cache file for /work
    that lists the root repository and a repository of folder [a]. *)
Example root_separator_first_from_cache :
  let w := mkWorld (mkConfig (Some "/work") None)
                   (fun p => if String.eqb p "/work" then Some Sample.repoDir else None)
                   (ParsedObject (JNum 1) (JStr "/work") (JNum 0)
                      (JArray [mkRepo "work" "/work" "/"; mkRepo "x" "/work/a/x" "a"]))
                   0 [] in
  let '(_, st, _) := loadConfig Sample.codeCompare false initialState w in
  separatorLabels (searchAllProjects Sample.codeCompare st "") =
  ["---------  / (root)  ---------"; "---------  a  ---------"].
Proof. reflexivity. Qed.

(** With the root category met last, it stays last. *)
Example root_separator_last (localeCompare : string -> string -> Z) :
  separatorLabels
    (formatProjectsWithSeparators localeCompare
       [mkProject "a" "x" "/work/a/x" "x (/work/a/x)";
        mkProject "/" "work" "/work" "work (/work)"])
  = ["---------  a  ---------"; "---------  / (root)  ---------"].
Proof. reflexivity. Qed.

End SeparatorExamples.

(** ** The scanner *)

Module ScanFacts.
Import Fs Scanner Walk.

(** Induction on trees, with the property for every entry of a
    directory at hand. *)
Lemma node_induction (P : node -> Prop) :
  P File ->
  (forall t l, P (Symlink t l)) ->
  (forall perm entries,
      Forall (fun ne : string * node => P (snd ne)) entries -> P (Dir perm entries)) ->
  forall x, P x.
Proof.
  intros HF HS HD.
  fix IH 1.
  intros [|t l|perm entries].
  - exact HF.
  - apply HS.
  - apply HD.
    induction entries as [|[n c] rest IHrest].
    + constructor.
    + constructor; [apply IH | exact IHrest].
Qed.

Lemma scanDirectory_dir wd dir tlf perm entries acc :
  scanDirectory wd dir tlf (Dir perm entries) acc =
  if existsSync_git perm entries then
    (acc ++ [mkRepo (Path.basename dir) dir tlf])%list
  else
    match perm with
    | Open => eachEntry wd dir tlf entries acc
    | _ => acc
    end.
Proof.
  cbn [scanDirectory].
  destruct (existsSync_git perm entries); [reflexivity|].
  destruct perm; try reflexivity.
  revert acc. induction entries as [|[n c] rest IH]; intros acc; [reflexivity|].
  cbn [eachEntry]. destruct c; rewrite IH; reflexivity.
Qed.

(** A scan only appends to the array. *)
Lemma scanDirectory_app wd x :
  forall dir tlf acc,
    scanDirectory wd dir tlf x acc = (acc ++ found wd dir tlf x)%list.
Proof.
  induction x as [| |perm entries IH] using node_induction; intros dir tlf acc;
    unfold found.
  - simpl. now rewrite app_nil_r.
  - simpl. now rewrite app_nil_r.
  - rewrite !scanDirectory_dir.
    destruct (existsSync_git perm entries); [reflexivity|].
    destruct perm; try now rewrite app_nil_r.
    revert acc.
    induction IH as [|[n c] rest Hc _ IHrest]; intros acc.
    + simpl. now rewrite app_nil_r.
    + cbn [eachEntry]. cbn [snd] in Hc. destruct c as [| |p es].
      * apply IHrest.
      * apply IHrest.
      * rewrite (Hc _ _ acc), (Hc _ _ (@nil GitRepository)).
        rewrite (IHrest (acc ++ _)%list), (IHrest ([] ++ _)%list).
        rewrite app_nil_l, app_assoc. reflexivity.
Qed.

Lemma eachEntry_flat wd dir tlf es acc :
  eachEntry wd dir tlf es acc = (acc ++ flat_map (foundIn wd dir tlf) es)%list.
Proof.
  revert acc. induction es as [|[n c] rest IH]; intros acc.
  - simpl. now rewrite app_nil_r.
  - cbn [eachEntry flat_map]. unfold foundIn at 1. cbn [fst snd].
    destruct c; rewrite IH; try reflexivity.
    rewrite scanDirectory_app, app_assoc. reflexivity.
Qed.

Lemma found_dir wd dir tlf perm entries :
  found wd dir tlf (Dir perm entries) =
  if existsSync_git perm entries then [mkRepo (Path.basename dir) dir tlf]
  else
    match perm with
    | Open => flat_map (foundIn wd dir tlf) entries
    | _ => []
    end.
Proof.
  unfold found. rewrite scanDirectory_dir.
  destruct (existsSync_git perm entries); [reflexivity|].
  destruct perm; try reflexivity.
  now rewrite eachEntry_flat.
Qed.

Lemma found_not_dir wd dir tlf x : isDirectory x = false -> found wd dir tlf x = [].
Proof. destruct x; [reflexivity | reflexivity | discriminate]. Qed.

(** The paths of a scan are the chains of [repoChains], joined to the
    path the scan starts from. *)
Lemma found_paths wd x :
  forall dir tlf,
    map path (found wd dir tlf x) = map (Path.joins dir) (repoChains x).
Proof.
  induction x as [| |perm entries IH] using node_induction; intros dir tlf;
    try reflexivity.
  rewrite found_dir. cbn [repoChains].
  destruct (existsSync_git perm entries); [reflexivity|].
  destruct perm; try reflexivity.
  induction IH as [|[n c] rest Hc _ IHrest]; [reflexivity|].
  cbn [flat_map]. rewrite !map_app, IHrest. f_equal.
  unfold foundIn. cbn [fst snd] in *.
  destruct c; try reflexivity.
  rewrite Hc, map_map. reflexivity.
Qed.

End ScanFacts.

(** C7. A repository that is a direct child of the scan root is meant
    to get the root sentinel as its top-level folder, which the picker
    shows as [/ (root)]. The scanner gives it its own directory name
    instead: at the root [isTopLevel] holds, so the child is scanned with
    [currentTopLevel = entry.name]. In the scan of /dev, the repository
    /dev/standalone-repo gets the top-level folder [standalone-repo], not
    [/], so the property of the claim does not hold of the scanner; only a
    scan root that is itself a repository gets the sentinel. *)
Theorem C7_direct_child_gets_own_name :
  Scanner.findGitRepositories "/dev" Sample.devTree =
    [Scanner.mkRepo "project-a" "/dev/work/project-a" "work";
     Scanner.mkRepo "my-app" "/dev/personal/my-app" "personal";
     Scanner.mkRepo "standalone-repo" "/dev/standalone-repo" "standalone-repo"]
  /\ Scanner.findGitRepositories "/dev" Sample.repoDir =
       [Scanner.mkRepo "dev" "/dev" Scanner.rootSentinel]
  /\ ~ (forall (wd : string) (root : Fs.node) (r : Scanner.GitRepository) (n : string),
           In r (Scanner.findGitRepositories wd root) ->
           Scanner.path r = Path.join wd n ->
           Scanner.topLevelFolder r = Scanner.rootSentinel).
Proof.
  split; [reflexivity|]. split; [reflexivity|].
  intros H.
  specialize (H "/dev" Sample.devTree
                (Scanner.mkRepo "standalone-repo" "/dev/standalone-repo" "standalone-repo")
                "standalone-repo").
  assert (Hin : In (Scanner.mkRepo "standalone-repo" "/dev/standalone-repo"
                      "standalone-repo")
                   (Scanner.findGitRepositories "/dev" Sample.devTree))
    by (right; right; left; reflexivity).
  specialize (H Hin eq_refl). discriminate H.
Qed.

(** ** The search *)

Module SearchFacts.
Import Str Ide.

Lemma is_space_lower c : is_space (lower_ascii c) = is_space c.
Proof. destruct c as [[] [] [] [] [] [] [] []]; reflexivity. Qed.

Lemma toLowerCase_empty s : toLowerCase s = "" <-> s = "".
Proof. destruct s; simpl; split; intros H; try reflexivity; discriminate. Qed.

Lemma trimStart_lower s : trimStart (toLowerCase s) = toLowerCase (trimStart s).
Proof.
  induction s as [|c r IH]; [reflexivity|].
  simpl. rewrite is_space_lower. destruct (is_space c); [exact IH | reflexivity].
Qed.

Lemma trimEnd_lower s : trimEnd (toLowerCase s) = toLowerCase (trimEnd s).
Proof.
  induction s as [|c r IH]; [reflexivity|].
  simpl. rewrite IH, is_space_lower.
  destruct (trimEnd r) as [|d t]; simpl.
  - destruct (is_space c); reflexivity.
  - reflexivity.
Qed.

(** Lower-casing and trimming commute. *)
Lemma trim_lower s : trim (toLowerCase s) = toLowerCase (trim s).
Proof. unfold trim. now rewrite trimStart_lower, trimEnd_lower. Qed.

Lemma filterProjects_in (all : list Project) p input :
  input <> "" ->
  (In p (filterProjects all input) <->
   In p all /\ forall k, In k (keywords input) -> includes (searchText p) k = true).
Proof.
  intros Hne. unfold filterProjects.
  destruct (String.eqb_spec input "") as [E|_]; [contradiction|]. simpl.
  rewrite filter_In, forallb_forall. reflexivity.
Qed.

End SearchFacts.

(** C2, as the specification states it, fails: the searched text is not
    the plain concatenation of the fields. For the entry with name [ab],
    category [cd] and path [/x], the keyword [bc] is a substring of the
    concatenation [abcd/x], yet the entry is not in the filtered result. *)
Lemma C2_concatenation_counterexample :
  let p := Ide.mkProject "cd" "ab" "/x" "ab (/x)" in
  Ide.keywords "bc" = ["bc"]
  /\ Str.includes
       (Str.toLowerCase (Ide.name p ++ Ide.category p ++ Ide.path p)) "bc" = true
  /\ ~ In p (Ide.filterProjects [p] "bc").
Proof.
  cbv zeta. split; [reflexivity|]. split; [reflexivity|].
  simpl. intros [].
Qed.

(** C2, amended. For a non-empty search string, an entry of the catalog
    is in the filtered result if and only if every keyword (the search
    string in lower case, trimmed and split on white space, which is the
    same as trimmed first) is a substring of the lower-cased text made of
    the entry's name, category and path joined by single spaces; the
    empty search string keeps every entry, in catalog order. *)
Theorem C2_search_and_semantics
    (allProjects : list Ide.Project) (p : Ide.Project) (input : string)
    (Hinput : input <> "") :
  (In p (Ide.filterProjects allProjects input) <->
   In p allProjects /\
   forall k, In k (Ide.keywords input) ->
     exists pre post,
       Str.toLowerCase (Ide.name p ++ " " ++ Ide.category p ++ " " ++ Ide.path p)
       = pre ++ k ++ post)
  /\ Ide.keywords input = Str.split_ws (Str.toLowerCase (Str.trim input))
  /\ Ide.filterProjects allProjects "" = allProjects.
Proof.
  split; [|split].
  - rewrite (@SearchFacts.filterProjects_in allProjects p input Hinput).
    split; intros [Hin Hk]; (split; [exact Hin|]); intros k Hkin.
    + apply StrFacts.includes_spec. now apply Hk.
    + apply StrFacts.includes_spec. now apply Hk.
  - unfold Ide.keywords. now rewrite SearchFacts.trim_lower.
  - reflexivity.
Qed.

Lemma C2_search_witness :
  let p := Ide.mkProject "web" "Shop-App" "/x/web/Shop-App" "Shop-App (/x/web/Shop-App)" in
  (In p (Ide.filterProjects [p] "  APP  web ") <->
   In p [p] /\
   forall k, In k (Ide.keywords "  APP  web ") ->
     exists pre post,
       Str.toLowerCase (Ide.name p ++ " " ++ Ide.category p ++ " " ++ Ide.path p)
       = pre ++ k ++ post)
  /\ Ide.keywords "  APP  web " = ["app"; "web"]
  /\ In p (Ide.filterProjects [p] "  APP  web ").
Proof.
  cbv zeta.
  assert (Hne : "  APP  web " <> "") by discriminate.
  destruct (@C2_search_and_semantics
              [Ide.mkProject "web" "Shop-App" "/x/web/Shop-App" "Shop-App (/x/web/Shop-App)"]
              (Ide.mkProject "web" "Shop-App" "/x/web/Shop-App" "Shop-App (/x/web/Shop-App)")
              "  APP  web " Hne) as (Hiff & _ & _).
  split; [exact Hiff|]. split; [reflexivity|].
  simpl. left. reflexivity.
Defined.

(** ** Paths *)

Module PathFacts.
Import Path.

Lemma segmentb_spec s : segmentb s = true <-> segment s.
Proof.
  unfold segmentb, segment.
  rewrite andb_true_iff, !negb_true_iff, String.eqb_neq. reflexivity.
Qed.

Lemma endsWithSlash_app d t : t <> "" -> endsWithSlash (d ++ t) = endsWithSlash t.
Proof.
  intros Ht. induction d as [|c d IH]; [reflexivity|].
  simpl. destruct (d ++ t) eqn:E.
  - destruct d; simpl in E; [contradiction | discriminate].
  - exact IH.
Qed.

Lemma endsWithSlash_noSlash t : hasSlash t = false -> endsWithSlash t = false.
Proof.
  induction t as [|c t IH]; [reflexivity|].
  simpl. intros H. apply orb_false_iff in H. destruct H as [Hc Ht].
  destruct t; [exact Hc | now apply IH].
Qed.

Lemma join_noSlashEnd d n : segment n -> endsWithSlash (join d n) = false.
Proof.
  intros [Hne Hns]. unfold join.
  destruct (endsWithSlash d).
  - rewrite endsWithSlash_app by assumption. now apply endsWithSlash_noSlash.
  - rewrite <- StrFacts.append_assoc, endsWithSlash_app by assumption.
    now apply endsWithSlash_noSlash.
Qed.

Lemma joins_below d ns :
  endsWithSlash d = false -> Forall segment ns -> joins d ns = d ++ below ns.
Proof.
  intros Hd Hns. revert d Hd.
  induction Hns as [|n ns Hn _ IH]; intros d Hd.
  - simpl. now rewrite StrFacts.append_nil_r.
  - cbn [joins below]. rewrite IH by now apply join_noSlashEnd.
    unfold join. rewrite Hd. now rewrite !StrFacts.append_assoc.
Qed.

Lemma joins_cons d n ns :
  Forall segment (n :: ns) -> joins d (n :: ns) = join d n ++ below ns.
Proof.
  intros H. inversion H as [|? ? Hn Hns]; subst.
  cbn [joins]. apply joins_below; [now apply join_noSlashEnd | assumption].
Qed.

Lemma joins_app d ns ms : joins d (ns ++ ms)%list = joins (joins d ns) ms.
Proof. revert d. induction ns as [|n ns IH]; intros d; [reflexivity | apply IH]. Qed.

Lemma below_slashOrEmpty ns : slashOrEmpty (below ns).
Proof. destruct ns; [now left | right; eexists; reflexivity]. Qed.

(** Two texts that begin with a name and go on with a separator agree
    on the name. *)
Lemma first_segment n m t u :
  hasSlash n = false -> hasSlash m = false ->
  slashOrEmpty t -> slashOrEmpty u ->
  n ++ t = m ++ u -> n = m /\ t = u.
Proof.
  revert m. induction n as [|a n IH]; intros m Hn Hm Ht Hu E.
  - destruct m as [|b m]; [now split|].
    simpl in E, Hm. apply orb_false_iff in Hm. destruct Hm as [Hb _].
    destruct Ht as [->|[r ->]]; [discriminate|].
    injection E as Eb _. subst b. discriminate Hb.
  - destruct m as [|b m].
    + simpl in E, Hn. apply orb_false_iff in Hn. destruct Hn as [Ha _].
      destruct Hu as [->|[r ->]]; [discriminate|].
      injection E as Ea _. subst a. discriminate Ha.
    + simpl in E, Hn, Hm. injection E as -> E.
      apply orb_false_iff in Hn. apply orb_false_iff in Hm.
      destruct (IH m (proj2 Hn) (proj2 Hm) Ht Hu E) as [-> ->]. now split.
Qed.

Lemma below_inj ns :
  forall ms, Forall segment ns -> Forall segment ms -> below ns = below ms -> ns = ms.
Proof.
  induction ns as [|n ns IH]; intros ms Hns Hms E.
  - destruct ms; [reflexivity | discriminate].
  - destruct ms as [|m ms]; [discriminate|].
    inversion Hns as [|? ? [_ Hn] Hns']; subst.
    inversion Hms as [|? ? [_ Hm] Hms']; subst.
    cbn [below] in E. simpl in E. injection E as E.
    destruct (first_segment _ _ Hn Hm (below_slashOrEmpty ns) (below_slashOrEmpty ms) E)
      as [-> E'].
    f_equal. now apply IH.
Qed.

Lemma length_join d n : n <> "" -> String.length d < String.length (join d n).
Proof.
  intros Hn. unfold join.
  destruct (endsWithSlash d); rewrite !StrFacts.length_append.
  - destruct n; [contradiction | simpl; lia].
  - simpl. lia.
Qed.

(** Different chains of names lead to different paths. *)
Lemma joins_inj d ns ms :
  Forall segment ns -> Forall segment ms -> joins d ns = joins d ms -> ns = ms.
Proof.
  intros Hns Hms E.
  destruct ns as [|n ns], ms as [|m ms]; try reflexivity.
  - exfalso. rewrite (joins_cons d Hms) in E. cbn [joins] in E.
    inversion Hms as [|? ? [Hm _] _]; subst.
    pose proof (length_join d Hm) as L.
    apply (f_equal String.length) in E. rewrite StrFacts.length_append in E. lia.
  - exfalso. rewrite (joins_cons d Hns) in E. cbn [joins] in E.
    inversion Hns as [|? ? [Hn _] _]; subst.
    pose proof (length_join d Hn) as L.
    apply (f_equal String.length) in E. rewrite StrFacts.length_append in E. lia.
  - rewrite (joins_cons d Hns), (joins_cons d Hms) in E.
    inversion Hns as [|? ? [_ Hn] Hns']; subst.
    inversion Hms as [|? ? [_ Hm] Hms']; subst.
    unfold join in E. destruct (endsWithSlash d).
    + rewrite !StrFacts.append_assoc in E. apply StrFacts.append_inv_head in E.
      destruct (first_segment _ _ Hn Hm (below_slashOrEmpty ns) (below_slashOrEmpty ms) E)
        as [-> E'].
      f_equal. now apply below_inj.
    + rewrite !StrFacts.append_assoc in E. apply StrFacts.append_inv_head in E.
      simpl in E. injection E as E.
      destruct (first_segment _ _ Hn Hm (below_slashOrEmpty ns) (below_slashOrEmpty ms) E)
        as [-> E'].
      f_equal. now apply below_inj.
Qed.

End PathFacts.

(** ** The chains of a scan *)

Module ChainFacts.
Import Fs Scanner Walk.

Lemma nodupb_NoDup l : nodupb l = true -> NoDup l.
Proof.
  induction l as [|s r IH]; intros H; [constructor|].
  simpl in H. apply andb_true_iff in H. destruct H as [Hs Hr].
  constructor; [|now apply IH].
  intros Hin. apply negb_true_iff in Hs.
  assert (existsb (String.eqb s) r = true) as E.
  { apply existsb_exists. exists s. split; [exact Hin | apply String.eqb_refl]. }
  congruence.
Qed.

Lemma wellFormed_dir perm entries :
  wellFormed (Dir perm entries) = true ->
  Forall Path.segment (map fst entries)
  /\ NoDup (map fst entries)
  /\ Forall (fun ne : string * node => wellFormed (snd ne) = true) entries.
Proof.
  cbn [wellFormed]. rewrite !andb_true_iff. intros [[Hs Hn] Hw].
  split; [|split].
  - apply Forall_forall. intros s Hin. apply PathFacts.segmentb_spec.
    rewrite forallb_forall in Hs. now apply Hs.
  - now apply nodupb_NoDup.
  - apply Forall_forall. rewrite forallb_forall in Hw. exact Hw.
Qed.

(** The chains of a listed directory that is not a repository. *)
Lemma chains_of_listed entries c :
  existsSync_git Open entries = false ->
  (In c (repoChains (Dir Open entries)) <->
   exists n p es c',
     In (n, Dir p es) entries /\ c = n :: c' /\ In c' (repoChains (Dir p es))).
Proof.
  intros Hm. cbn [repoChains]. rewrite Hm, in_flat_map. split.
  - intros [[n x] [Hin Hc]]. cbn [fst snd] in Hc.
    destruct x as [| |p es]; try contradiction.
    apply in_map_iff in Hc. destruct Hc as [c' [<- Hc']].
    now exists n, p, es, c'.
  - intros (n & p & es & c' & Hin & -> & Hc').
    exists (n, Dir p es). split; [exact Hin|].
    cbn [fst snd]. now apply in_map.
Qed.

Lemma chains_cases perm entries c :
  In c (repoChains (Dir perm entries)) ->
  (existsSync_git perm entries = true /\ c = [])
  \/ (existsSync_git perm entries = false /\ perm = Open).
Proof.
  cbn [repoChains]. destruct (existsSync_git perm entries).
  - intros [<-|[]]. now left.
  - destruct perm; try contradiction. now right.
Qed.

Lemma same_name_same_entry (entries : list (string * node)) n x y :
  NoDup (map fst entries) -> In (n, x) entries -> In (n, y) entries -> x = y.
Proof.
  induction entries as [|[m z] rest IH]; intros Hnd Hx Hy; [contradiction|].
  cbn [map fst] in Hnd. inversion Hnd as [|? ? Hnot Hrest]; subst.
  destruct Hx as [Ex|Hx], Hy as [Ey|Hy].
  - congruence.
  - injection Ex as -> ->. exfalso. apply Hnot.
    change n with (fst (n, y)). now apply in_map.
  - injection Ey as -> ->. exfalso. apply Hnot.
    change n with (fst (n, x)). now apply in_map.
  - now apply IH.
Qed.

Lemma chains_segments x :
  wellFormed x = true -> forall c, In c (repoChains x) -> Forall Path.segment c.
Proof.
  induction x as [| |perm entries IH] using ScanFacts.node_induction;
    intros Hwf c Hc; try contradiction.
  destruct (chains_cases _ _ _ Hc) as [[_ ->]|[Hm ->]]; [constructor|].
  apply (chains_of_listed _ _ Hm) in Hc.
  destruct Hc as (n & p & es & c' & Hin & -> & Hc').
  destruct (wellFormed_dir _ _ Hwf) as (Hseg & _ & Hsub).
  rewrite Forall_forall in IH, Hseg, Hsub.
  constructor.
  - apply Hseg. change n with (fst (n, Dir p es)). now apply in_map.
  - apply (IH _ Hin); [apply (Hsub _ Hin) | exact Hc'].
Qed.

(** No chain of a scan continues another one: the scan stops at a
    repository. *)
Lemma chains_prefix_free x :
  wellFormed x = true ->
  forall c ms, In c (repoChains x) -> In (c ++ ms)%list (repoChains x) -> ms = [].
Proof.
  induction x as [| |perm entries IH] using ScanFacts.node_induction;
    intros Hwf c ms Hc Hcm; try contradiction.
  destruct (chains_cases _ _ _ Hc) as [[Hm ->]|[Hm ->]].
  - destruct (chains_cases _ _ _ Hcm) as [[_ E]|[Hm' _]]; [exact E | congruence].
  - apply (chains_of_listed _ _ Hm) in Hc. apply (chains_of_listed _ _ Hm) in Hcm.
    destruct Hc as (n & p & es & c' & Hin & -> & Hc').
    destruct Hcm as (n2 & p2 & es2 & c2 & Hin2 & E & Hc2).
    cbn [app] in E. injection E as <- <-.
    destruct (wellFormed_dir _ _ Hwf) as (_ & Hnd & Hsub).
    pose proof (same_name_same_entry _ _ _ _ Hnd Hin Hin2) as Esame.
    injection Esame as <- <-.
    rewrite Forall_forall in IH, Hsub.
    apply (IH _ Hin (Hsub _ Hin) c' ms Hc' Hc2).
Qed.

Lemma chains_NoDup x : wellFormed x = true -> NoDup (repoChains x).
Proof.
  induction x as [| |perm entries IH] using ScanFacts.node_induction;
    intros Hwf; try constructor.
  destruct (wellFormed_dir _ _ Hwf) as (_ & Hnd & Hsub).
  cbn [repoChains]. destruct (existsSync_git perm entries).
  - constructor; [intros [] | constructor].
  - destruct perm; try constructor.
    clear Hwf. induction entries as [|[n x] rest IHrest]; [constructor|].
    cbn [map fst] in Hnd. inversion Hnd as [|? ? Hnot Hrest]; subst.
    inversion IH as [|? ? Hx IHr]; subst.
    inversion Hsub as [|? ? Hwx Hsubr]; subst.
    cbn [flat_map fst snd]. apply NoDup_app.
    + destruct x as [| |p es]; try constructor.
      apply NoDup_map_NoDup_ForallPairs.
      * intros a b _ _ E. now injection E.
      * now apply Hx.
    + now apply IHrest.
    + intros c Hc Hc2. destruct x as [| |p es]; try contradiction.
      apply in_map_iff in Hc. destruct Hc as [c' [<- _]].
      apply in_flat_map in Hc2. destruct Hc2 as [[m y] [Hin Hc2]].
      cbn [fst snd] in Hc2. destruct y; try contradiction.
      apply in_map_iff in Hc2. destruct Hc2 as [c2 [E _]].
      injection E as -> _. apply Hnot.
      change n with (fst (n, Dir perm entries)). now apply in_map.
Qed.

End ChainFacts.

(** C3. For every well-formed directory tree (entry names are path
    segments, distinct within a directory), the result of
    [findGitRepositories] has no two entries with the same path, and no
    entry whose path lies strictly below the path of another entry. *)
Theorem C3_paths_unique_and_not_nested
    (wd : string) (root : Fs.node)
    (Hwf : Walk.wellFormed root = true) :
  NoDup (map Scanner.path (Scanner.findGitRepositories wd root))
  /\ forall r1 r2,
       In r1 (Scanner.findGitRepositories wd root) ->
       In r2 (Scanner.findGitRepositories wd root) ->
       ~ Walk.strictDescendant (Scanner.path r1) (Scanner.path r2).
Proof.
  unfold Scanner.findGitRepositories.
  fold (Walk.found wd wd Scanner.rootSentinel root).
  pose proof (ScanFacts.found_paths wd root wd Scanner.rootSentinel) as Hpaths.
  split.
  - rewrite Hpaths. apply NoDup_map_NoDup_ForallPairs.
    + intros a b Ha Hb E.
      apply (PathFacts.joins_inj wd); try assumption;
        now apply (ChainFacts.chains_segments root Hwf).
    + now apply ChainFacts.chains_NoDup.
  - intros r1 r2 H1 H2 (names & Hne & Hseg & E).
    apply (in_map Scanner.path) in H1. apply (in_map Scanner.path) in H2.
    rewrite Hpaths in H1, H2.
    apply in_map_iff in H1. destruct H1 as [c1 [E1 Hc1]].
    apply in_map_iff in H2. destruct H2 as [c2 [E2 Hc2]].
    rewrite <- E1, <- E2, <- PathFacts.joins_app in E.
    pose proof (ChainFacts.chains_segments root Hwf) as Hsegs.
    apply PathFacts.joins_inj in E.
    + subst c2. apply Hne.
      now apply (ChainFacts.chains_prefix_free root Hwf c1 names).
    + now apply Hsegs.
    + apply Forall_app. split; [now apply Hsegs | exact Hseg].
Qed.

Lemma C3_paths_unique_witness :
  NoDup (map Scanner.path (Scanner.findGitRepositories "/r" Sample.nested))
  /\ forall r1 r2,
       In r1 (Scanner.findGitRepositories "/r" Sample.nested) ->
       In r2 (Scanner.findGitRepositories "/r" Sample.nested) ->
       ~ Walk.strictDescendant (Scanner.path r1) (Scanner.path r2).
Proof.
  apply (@C3_paths_unique_and_not_nested "/r" Sample.nested). reflexivity.
Defined.

(** ** Directories that cannot be listed *)

Module SkipFacts.
Import Fs Scanner Walk.

Lemma existsSync_git_live perm entries :
  existsSync_git perm entries =
  match perm with
  | Closed => false
  | _ => match option_map live (lookup ".git" entries) with
         | Some b => b
         | None => false
         end
  end.
Proof.
  unfold existsSync_git. destruct perm; try reflexivity;
    destruct (lookup ".git" entries) as [[| |]|]; reflexivity.
Qed.

Lemma lookup_dropNth k (entries : list (string * node)) :
  forall i n x,
    nth_error entries i = Some (n, x) -> n <> k ->
    lookup k (dropNth i entries) = lookup k entries.
Proof.
  induction entries as [|[m z] rest IH]; intros i n x Hi Hn.
  - destruct i; discriminate.
  - destruct i as [|j]; simpl in Hi.
    + injection Hi as -> ->. simpl.
      destruct (String.eqb_spec n k); [contradiction | reflexivity].
    + simpl. destruct (String.eqb m k); [reflexivity | now apply (IH j n x)].
Qed.

Lemma removeAt_not_dir pos x : isDirectory x = false -> removeAt pos x = x.
Proof.
  destruct x; try discriminate; intros _; destruct pos as [|i [|j pos]]; reflexivity.
Qed.

Lemma live_removeAt pos x : live (removeAt pos x) = live x.
Proof.
  destruct x as [| |p es]; try (now rewrite removeAt_not_dir).
  destruct pos as [|i [|j pos]]; reflexivity.
Qed.

Lemma lookup_changeNth k pos (entries : list (string * node)) :
  forall i,
    option_map live
      (lookup k (changeNth i (fun ne => (fst ne, removeAt pos (snd ne))) entries))
    = option_map live (lookup k entries).
Proof.
  induction entries as [|[m z] rest IH]; intros i.
  - destruct i; reflexivity.
  - destruct i as [|j]; simpl.
    + destruct (String.eqb m k); [|reflexivity]. simpl. now rewrite live_removeAt.
    + destruct (String.eqb m k); [reflexivity | apply IH].
Qed.

Lemma flat_map_dropNth (A B : Type) (f : A -> list B) (l : list A) :
  forall i e, nth_error l i = Some e -> f e = [] ->
              flat_map f (dropNth i l) = flat_map f l.
Proof.
  induction l as [|a r IH]; intros i e Hi He.
  - destruct i; discriminate.
  - destruct i as [|j]; simpl in Hi.
    + injection Hi as ->. simpl. now rewrite He.
    + simpl. now rewrite (IH j e).
Qed.

Lemma flat_map_changeNth (A B : Type) (f : A -> list B) (g : A -> A) (l : list A) :
  forall i e, nth_error l i = Some e -> f (g e) = f e ->
              flat_map f (changeNth i g l) = flat_map f l.
Proof.
  induction l as [|a r IH]; intros i e Hi He.
  - destruct i; discriminate.
  - destruct i as [|j]; simpl in Hi.
    + injection Hi as ->. simpl. now rewrite He.
    + simpl. now rewrite (IH j e).
Qed.

(** A directory without a visible marker whose listing raises adds
    nothing to the array. *)
Lemma unlistable_adds_nothing wd dir tlf perm sub acc :
  perm <> Open -> existsSync_git perm sub = false ->
  scanDirectory wd dir tlf (Dir perm sub) acc = acc.
Proof.
  intros Hp Hm. rewrite ScanFacts.scanDirectory_dir, Hm.
  destruct perm; [contradiction | reflexivity | reflexivity].
Qed.

(** The scan does not see whether such a directory is there. *)
Lemma found_removeAt wd pos :
  forall root dir tlf n perm sub,
    entryAt pos root = Some (n, Dir perm sub) ->
    perm <> Open -> existsSync_git perm sub = false -> n <> ".git" ->
    found wd dir tlf (removeAt pos root) = found wd dir tlf root.
Proof.
  induction pos as [|i pos IH]; intros root dir tlf n perm sub Hat Hp Hm Hn;
    [discriminate|].
  destruct root as [| |rp es]; try discriminate.
  cbn [entryAt] in Hat.
  destruct (nth_error es i) as [[m c]|] eqn:Hi; [|discriminate].
  destruct pos as [|j pos].
  - injection Hat as -> ->. cbn [removeAt].
    rewrite !ScanFacts.found_dir.
    rewrite (existsSync_git_live rp (dropNth i es)), (existsSync_git_live rp es).
    rewrite (lookup_dropNth _ _ Hi Hn).
    destruct rp; try reflexivity.
    rewrite (flat_map_dropNth _ _ _ Hi); [reflexivity|].
    unfold foundIn. cbn [fst snd]. unfold found.
    now apply unlistable_adds_nothing.
  - change (removeAt (i :: j :: pos) (Dir rp es))
      with (Dir rp (changeNth i (fun ne => (fst ne, removeAt (j :: pos) (snd ne))) es)).
    rewrite !ScanFacts.found_dir.
    rewrite (existsSync_git_live rp (changeNth _ _ _)), (existsSync_git_live rp es).
    rewrite lookup_changeNth.
    destruct rp; try reflexivity.
    rewrite (flat_map_changeNth _ _ _ _ Hi); [reflexivity|].
    unfold foundIn. cbn [fst snd].
    destruct c as [| |cp ces]; try discriminate Hat.
    assert (Hd : exists a b, removeAt (j :: pos) (Dir cp ces) = Dir a b).
    { destruct pos; eexists; eexists; reflexivity. }
    destruct Hd as (a & b & Hd).
    rewrite <- (IH (Dir cp ces) (Path.join dir m)
                   (if String.eqb dir wd then m else tlf) n perm sub Hat Hp Hm Hn).
    rewrite Hd. reflexivity.
Qed.

End SkipFacts.

(** C8, as the specification states it, fails: a directory whose listing
    raises can still contribute an entry. In /r with the repositories
    /r/a and /r/c and the directory /r/b that can be searched but not
    listed and holds a [.git], the marker test succeeds before any
    listing is tried: /r/b is reported, and the result differs from the
    one without /r/b. *)
Lemma C8_unlistable_repo_counterexample :
  ~ (forall (wd : string) (root : Fs.node) (pos : list nat) (n : string)
            (perm : Fs.access) (sub : list (string * Fs.node)),
        Walk.entryAt pos root = Some (n, Fs.Dir perm sub) ->
        perm <> Fs.Open ->
        (forall dir tlf acc,
            Scanner.scanDirectory wd dir tlf (Fs.Dir perm sub) acc = acc)
        /\ Scanner.findGitRepositories wd root =
           Scanner.findGitRepositories wd (Walk.removeAt pos root)).
Proof.
  intros H.
  destruct (H "/r" Sample.unlistable_repo [1] "b" Fs.SearchOnly
              [(".git", Fs.Dir Fs.Open [])] eq_refl) as [_ E].
  - discriminate.
  - discriminate E.
Qed.

(** C8, amended. The scan never raises (it is a total function). A
    directory whose listing raises and in which no repository marker is
    visible, and which is not itself the [.git] entry of its parent,
    contributes no entry wherever the scan meets it, and the result of
    the whole scan is exactly the result for the tree without that
    directory: its siblings are scanned as if it were absent. *)
Theorem C8_unreadable_directory_skipped
    (wd : string) (root : Fs.node) (pos : list nat) (n : string)
    (perm : Fs.access) (sub : list (string * Fs.node))
    (Hat : Walk.entryAt pos root = Some (n, Fs.Dir perm sub))
    (Hperm : perm <> Fs.Open)
    (Hmarker : Fs.existsSync_git perm sub = false)
    (Hname : n <> ".git") :
  (forall dir tlf acc,
      Scanner.scanDirectory wd dir tlf (Fs.Dir perm sub) acc = acc)
  /\ Scanner.findGitRepositories wd root =
     Scanner.findGitRepositories wd (Walk.removeAt pos root).
Proof.
  split.
  - intros dir tlf acc. now apply SkipFacts.unlistable_adds_nothing.
  - unfold Scanner.findGitRepositories.
    fold (Walk.found wd wd Scanner.rootSentinel root).
    fold (Walk.found wd wd Scanner.rootSentinel (Walk.removeAt pos root)).
    symmetry. now apply (SkipFacts.found_removeAt wd pos root wd Scanner.rootSentinel Hat).
Qed.

Lemma C8_unreadable_directory_witness :
  (forall dir tlf acc,
      Scanner.scanDirectory "/r" dir tlf (Fs.Dir Fs.Closed [("x", Sample.repoDir)]) acc = acc)
  /\ Scanner.findGitRepositories "/r" Sample.unreadable_sibling =
     Scanner.findGitRepositories "/r"
       (Fs.Dir Fs.Open [("a", Sample.repoDir); ("c", Sample.repoDir)]).
Proof.
  apply (@C8_unreadable_directory_skipped "/r" Sample.unreadable_sibling [1] "b"
           Fs.Closed [("x", Sample.repoDir)]).
  - reflexivity.
  - discriminate.
  - reflexivity.
  - discriminate.
Defined.

(** ** Links that lead somewhere *)

Module LinkedFacts.
Import Scanner Linked.

(** Induction on objects, with the property for every entry of a
    directory at hand. *)
Lemma obj_induction (P : obj -> Prop) :
  P LFile ->
  (forall t, P (LLink t)) ->
  (forall perm entries,
      Forall (fun ne : string * obj => P (snd ne)) entries -> P (LDir perm entries)) ->
  forall x, P x.
Proof.
  intros HF HL HD.
  fix IH 1.
  intros [|t|perm entries].
  - exact HF.
  - apply HL.
  - apply HD.
    induction entries as [|[n c] rest IHrest].
    + constructor.
    + constructor; [apply IH | exact IHrest].
Qed.

Lemma walkWith_extends follow :
  extends follow -> forall cur, extends (walkWith follow cur).
Proof.
  intros Hf cur path. revert cur.
  induction path as [|m rest IH]; intros cur n x E.
  - cbn [walkWith] in E. injection E as <-. cbn [app walkWith].
    destruct (child cur n) as [[|t|p es]|]; reflexivity || exact I.
  - cbn [app walkWith] in E |- *.
    destruct (child cur m) as [[|t|p es]|]; try discriminate E.
    + now apply IH.
    + rewrite app_assoc. now apply Hf.
    + now apply IH.
Qed.

Lemma resolveWith_extends world budget : extends (resolveWith world budget).
Proof.
  induction budget as [|b IH].
  - apply walkWith_extends. intros path n x E. discriminate E.
  - apply walkWith_extends. exact IH.
Qed.

Lemma resolve_extends world : extends (resolve world).
Proof. apply resolveWith_extends. Qed.

Lemma scanDirectory_step world fuel wd dir tlf acc :
  scanDirectory world (S fuel) wd dir tlf acc =
  if existsSync world (dir ++ [".git"])%list then
    Some (acc ++ [mkRepo (Path.basename (pathString dir)) (pathString dir) tlf])%list
  else
    match readdirSync world dir with
    | None => Some acc
    | Some entries => eachEntry world fuel wd dir tlf entries acc
    end.
Proof.
  cbn [scanDirectory].
  destruct (existsSync world (dir ++ [".git"])%list); [reflexivity|].
  destruct (readdirSync world dir) as [entries|]; [|reflexivity].
  revert acc. induction entries as [|[n e] rest IH]; intros acc; [reflexivity|].
  cbn [eachEntry]. destruct (isDirectory e); [|apply IH].
  destruct (scanDirectory world fuel wd (dir ++ [n])%list _ acc); [apply IH | reflexivity].
Qed.

Lemma lookup_In (entries : list (string * obj)) n y :
  NoDup (map fst entries) -> In (n, y) entries -> lookup n entries = Some y.
Proof.
  induction entries as [|[m z] rest IH]; intros Hnd Hin; [contradiction|].
  cbn [map fst] in Hnd. inversion Hnd as [|? ? Hnot Hrest]; subst.
  cbn [lookup]. destruct Hin as [E|Hin].
  - injection E as -> ->. now rewrite String.eqb_refl.
  - destruct (String.eqb_spec m n) as [->|_]; [|now apply IH].
    exfalso. apply Hnot. change n with (fst (n, y)). now apply in_map.
Qed.

Lemma height_entry perm (entries : list (string * obj)) n y :
  In (n, y) entries -> height y < height (LDir perm entries).
Proof.
  intros Hin. cbn [height]. apply Nat.lt_succ_r.
  assert (H : Forall (fun k => k <= list_max (map (fun ne : string * obj => height (snd ne))
                                                  entries))
                     (map (fun ne : string * obj => height (snd ne)) entries))
    by now apply list_max_le.
  rewrite Forall_forall in H. apply H.
  apply in_map_iff. now exists (n, y).
Qed.

Lemma wellFormed_entries perm entries :
  wellFormed (LDir perm entries) = true ->
  NoDup (map fst entries)
  /\ forall n y, In (n, y) entries -> wellFormed y = true.
Proof.
  cbn [wellFormed]. rewrite andb_true_iff. intros [Hn Hw]. split.
  - now apply ChainFacts.nodupb_NoDup.
  - intros n y Hin. rewrite forallb_forall in Hw. exact (Hw _ Hin).
Qed.

(** A path that does not resolve to a directory that can be searched
    shows no marker and gives nothing. *)
Lemma scan_nothing world wd dir tlf x :
  resolve world dir = Some x ->
  (forall n, child x n = None) ->
  (forall entries, x <> LDir Fs.Open entries) ->
  forall fuel acc, 0 < fuel -> scanDirectory world fuel wd dir tlf acc = Some acc.
Proof.
  intros Hres Hchild Hnot fuel acc Hf.
  destruct fuel as [|fuel]; [lia|]. rewrite scanDirectory_step.
  pose proof (resolve_extends world dir ".git" Hres) as He. rewrite Hchild in He.
  unfold existsSync, readdirSync. rewrite He, Hres.
  destruct x as [|t|[| |] entries]; try reflexivity.
  exfalso. now apply (Hnot entries).
Qed.

(** What a scan finds at a path that resolves to [x]: the same entries
    for every fuel above the height of [x], each at the end of a chain of
    real directories below [x]. *)
Lemma scan_found world wd x :
  wellFormed x = true ->
  forall dir tlf,
    resolve world dir = Some x ->
    exists found,
      (forall fuel acc,
          height x < fuel ->
          scanDirectory world fuel wd dir tlf acc = Some (acc ++ found)%list)
      /\ Forall (fun r => exists chain,
                     viaDirectories chain x = true
                     /\ path r = pathString (dir ++ chain)%list)
                found.
Proof.
  induction x as [|t|perm entries IH] using obj_induction; intros Hwf dir tlf Hres.
  - exists []. split; [|constructor]. intros fuel acc Hf. rewrite app_nil_r.
    apply (@scan_nothing world wd dir tlf _ Hres); try reflexivity; [discriminate | lia].
  - exists []. split; [|constructor]. intros fuel acc Hf. rewrite app_nil_r.
    apply (@scan_nothing world wd dir tlf _ Hres); try reflexivity; [discriminate | lia].
  - destruct (wellFormed_entries _ _ Hwf) as [Hnd Hsub].
    destruct (existsSync world (dir ++ [".git"])%list) eqn:Hm.
    + exists [mkRepo (Path.basename (pathString dir)) (pathString dir) tlf]. split.
      * intros fuel acc Hf. destruct fuel as [|fuel]; [lia|].
        now rewrite scanDirectory_step, Hm.
      * constructor; [|constructor]. exists []. split; [reflexivity|].
        cbn [path]. now rewrite app_nil_r.
    + destruct perm.
      2,3: exists []; split; [|constructor]; intros fuel acc Hf;
           destruct fuel as [|fuel]; [lia|];
           rewrite scanDirectory_step, Hm; unfold readdirSync; rewrite Hres;
           now rewrite app_nil_r.
      assert (Hloop : forall rest,
                 (forall e, In e rest -> In e entries) ->
                 exists found,
                   (forall fuel acc,
                       height (LDir Fs.Open entries) < S fuel ->
                       eachEntry world fuel wd dir tlf rest acc = Some (acc ++ found)%list)
                   /\ Forall (fun r => exists chain,
                                  viaDirectories chain (LDir Fs.Open entries) = true
                                  /\ path r = pathString (dir ++ chain)%list)
                             found).
      { induction rest as [|[n e] rest IHrest]; intros Hin.
        - exists []. split; [|constructor]. intros fuel acc _. cbn. now rewrite app_nil_r.
        - assert (Hrest : forall e0, In e0 rest -> In e0 entries)
            by (intros e0 H0; apply Hin; now right).
          destruct (IHrest Hrest) as (foundR & HR & HRall).
          assert (Hne : In (n, e) entries) by (apply Hin; now left).
          destruct e as [|t|p es].
          + exists foundR. split; [|exact HRall]. intros fuel acc Hf. cbn [eachEntry isDirectory].
            now apply HR.
          + exists foundR. split; [|exact HRall]. intros fuel acc Hf. cbn [eachEntry isDirectory].
            now apply HR.
          + rewrite Forall_forall in IH.
            assert (Hchild : resolve world (dir ++ [n])%list = Some (LDir p es)).
            { pose proof (resolve_extends world dir n Hres) as He.
              cbn [child] in He. now rewrite (lookup_In _ _ _ Hnd Hne) in He. }
            destruct (IH _ Hne (Hsub _ _ Hne) (dir ++ [n])%list
                         (if String.eqb (pathString dir) (pathString wd) then n else tlf)
                         Hchild) as (foundE & HE & HEall).
            exists (foundE ++ foundR)%list. split.
            * intros fuel acc Hf. cbn [eachEntry isDirectory].
              pose proof (height_entry Fs.Open _ _ _ Hne) as Hh.
              assert (Hlt : height (LDir p es) < fuel) by lia.
              rewrite (HE fuel acc Hlt). rewrite HR by exact Hf. now rewrite app_assoc.
            * apply Forall_app. split; [|exact HRall].
              rewrite Forall_forall in HEall |- *. intros r Hr.
              destruct (HEall r Hr) as (chain & Hv & Hp).
              exists (n :: chain). split.
              -- cbn [viaDirectories]. apply existsb_exists.
                 exists (n, LDir p es). split; [exact Hne|].
                 cbn [fst snd]. now rewrite String.eqb_refl.
              -- rewrite Hp, <- app_assoc. reflexivity. }
      destruct (Hloop entries (fun e H => H)) as (found & Hf & Hall).
      exists found. split; [|exact Hall].
      intros fuel acc Hlt. destruct fuel as [|fuel]; [lia|].
      rewrite scanDirectory_step, Hm. unfold readdirSync. rewrite Hres.
      now apply Hf.
Qed.

Lemma pathString_entry dir n : pathString (dir ++ [n])%list = Path.join (pathString dir) n.
Proof. unfold pathString. now rewrite PathFacts.joins_app. Qed.

Lemma lookup_view world dir n entries :
  Fs.lookup n (map (fun ne : string * obj =>
                      (fst ne, view world (dir ++ [fst ne])%list (snd ne))) entries)
  = option_map (view world (dir ++ [n])%list) (lookup n entries).
Proof.
  induction entries as [|[m z] rest IH]; [reflexivity|].
  cbn [map Fs.lookup lookup fst snd].
  destruct (String.eqb_spec m n) as [->|_]; [reflexivity | exact IH].
Qed.

(** The marker test on a path is the marker test on the view of the
    directory it resolves to. *)
Lemma marker_view world dir perm entries :
  resolve world dir = Some (LDir perm entries) ->
  existsSync world (dir ++ [".git"])%list
  = Fs.existsSync_git perm
      (map (fun ne : string * obj =>
              (fst ne, view world (dir ++ [fst ne])%list (snd ne))) entries).
Proof.
  intros Hres. pose proof (resolve_extends world dir ".git" Hres) as He.
  unfold Fs.existsSync_git. rewrite lookup_view.
  destruct perm; cbn [child] in He.
  3: { unfold existsSync. now rewrite He. }
  all: destruct (lookup ".git" entries) as [[|t|p es]|]; cbn [option_map view];
    try reflexivity; unfold existsSync; now rewrite He.
Qed.

(** The scan over paths is the scan of the tree the scanner can
    observe: where [dir] resolves to [x], it gives what
    [Scanner.scanDirectory] gives on the view of [x], for every fuel above
    the height of [x]. *)
Lemma scan_view world wd x :
  wellFormed x = true ->
  forall dir tlf,
    resolve world dir = Some x ->
    forall fuel acc,
      height x < fuel ->
      scanDirectory world fuel wd dir tlf acc
      = Some (Scanner.scanDirectory (pathString wd) (pathString dir) tlf
                (view world dir x) acc).
Proof.
  induction x as [|t|perm entries IH] using obj_induction;
    intros Hwf dir tlf Hres fuel acc Hf.
  - apply (@scan_nothing world wd dir tlf _ Hres); try reflexivity; [discriminate | lia].
  - apply (@scan_nothing world wd dir tlf _ Hres); try reflexivity; [discriminate | lia].
  - destruct (wellFormed_entries _ _ Hwf) as [Hnd Hsub].
    destruct fuel as [|fuel]; [lia|].
    rewrite scanDirectory_step. cbn [view]. rewrite ScanFacts.scanDirectory_dir.
    rewrite <- (marker_view world dir Hres).
    destruct (existsSync world (dir ++ [".git"])%list); [reflexivity|].
    unfold readdirSync. rewrite Hres.
    destruct perm; try reflexivity.
    assert (Hloop : forall rest,
               (forall e, In e rest -> In e entries) ->
               forall acc,
                 eachEntry world fuel wd dir tlf rest acc
                 = Some (Walk.eachEntry (pathString wd) (pathString dir) tlf
                           (map (fun ne : string * obj =>
                                   (fst ne, view world (dir ++ [fst ne])%list (snd ne)))
                                rest) acc)).
    { induction rest as [|[n e] rest IHrest]; intros Hin acc0; [reflexivity|].
      assert (Hrest : forall e0, In e0 rest -> In e0 entries)
        by (intros e0 H0; apply Hin; now right).
      assert (Hne : In (n, e) entries) by (apply Hin; now left).
      cbn [map fst snd eachEntry Walk.eachEntry].
      destruct e as [|t|p es].
      - cbn [isDirectory view]. now apply IHrest.
      - cbn [isDirectory view]. now apply IHrest.
      - rewrite Forall_forall in IH.
        assert (Hchild : resolve world (dir ++ [n])%list = Some (LDir p es)).
        { pose proof (resolve_extends world dir n Hres) as He.
          cbn [child] in He. now rewrite (lookup_In _ _ _ Hnd Hne) in He. }
        pose proof (height_entry Fs.Open _ _ _ Hne) as Hh.
        assert (Hlt : height (LDir p es) < fuel) by lia.
        cbn [isDirectory].
        rewrite (IH _ Hne (Hsub _ _ Hne) (dir ++ [n])%list
                    (if String.eqb (pathString dir) (pathString wd) then n else tlf)
                    Hchild fuel acc0 Hlt).
        rewrite (IHrest Hrest). rewrite pathString_entry.
        cbn [view]. reflexivity. }
    now apply Hloop.
Qed.

End LinkedFacts.
(** ** Symbolic links *)

(** C10. The scanner goes down into entries whose own type is directory
    and into nothing else, in a file system where a symbolic link leads
    to its target, an ancestor of the link included. When the working
    directory resolves (through links or not) to a tree [x] whose
    directories have no name twice, the scan returns: every fuel above
    the depth of the real directories of [x] gives the same result,
    whatever the links of [x] lead to. The result is the scan of what
    the scanner can observe of [x], in which a link is a leaf. Every
    reported path is the working directory followed by the names of a
    chain of real directories of [x]; a symbolic link is never part of
    it, so a repository that is reached only through a link below the
    working directory is not reported, and links that form cycles do not
    keep the walk from ending. *)
Theorem C10_symlinks_never_followed
    (world : Linked.obj) (wd : list string) (x : Linked.obj)
    (Hres : Linked.resolve world wd = Some x)
    (Hwf : Linked.wellFormed x = true) :
  exists result,
    (forall fuel,
        Linked.height x < fuel ->
        Linked.findGitRepositories world fuel wd = Some result)
    /\ result = Scanner.findGitRepositories (Linked.pathString wd)
                  (Linked.view world wd x)
    /\ Forall (fun r => exists chain,
                   Linked.viaDirectories chain x = true
                   /\ Scanner.path r = Linked.pathString (wd ++ chain))
              result.
Proof.
  destruct (@LinkedFacts.scan_found world wd x Hwf wd Scanner.rootSentinel Hres)
    as (found & Hf & Hall).
  assert (Hrun : forall fuel,
             Linked.height x < fuel ->
             Linked.findGitRepositories world fuel wd = Some found).
  { intros fuel Hlt. unfold Linked.findGitRepositories.
    now rewrite (Hf fuel [] Hlt). }
  exists found. split; [exact Hrun|]. split; [|exact Hall].
  pose proof (Hrun (S (Linked.height x)) (Nat.lt_succ_diag_r _)) as E.
  unfold Linked.findGitRepositories in E.
  rewrite (@LinkedFacts.scan_view world wd x Hwf wd Scanner.rootSentinel Hres
             (S (Linked.height x)) [] (Nat.lt_succ_diag_r _)) in E.
  injection E as E. symmetry. exact E.
Qed.

Lemma C10_symlinks_witness :
  (exists result,
      (forall fuel,
          4 < fuel ->
          Linked.findGitRepositories Sample.linkedWorld fuel ["r"] = Some result)
      /\ result = Scanner.findGitRepositories "/r"
                    (Linked.view Sample.linkedWorld ["r"] Sample.linkedDir)
      /\ Forall (fun r => exists chain,
                     Linked.viaDirectories chain Sample.linkedDir = true
                     /\ Scanner.path r = Linked.pathString (["r"] ++ chain))
                result)
  /\ Linked.findGitRepositories Sample.linkedWorld 5 ["r"] =
     Some [Scanner.mkRepo "p" "/r/a/p" "a"]
  /\ Linked.existsSync Sample.linkedWorld ["r"; "ext"; "hidden"; ".git"] = true
  /\ Linked.existsSync Sample.linkedWorld ["r"; "loop"; "loop"; "a"; "back"; "p"; ".git"]
     = true
  /\ Linked.resolve Sample.linkedWorld ["home"] = Some Sample.linkedDir
  /\ Linked.findGitRepositories Sample.linkedWorld 5 ["home"] =
     Some [Scanner.mkRepo "p" "/home/a/p" "a"].
Proof.
  split.
  - exact (@C10_symlinks_never_followed Sample.linkedWorld ["r"] Sample.linkedDir
             eq_refl eq_refl).
  - repeat split; reflexivity.
Defined.

(** ** Sorting *)

Module SortFacts.
Import JsArray Cmp.

Section Perm.
Variable A : Type.
Variable comparefn : A -> A -> Z.

Lemma extendRun_app descending prev (l : list A) :
  forall run left,
    extendRun comparefn descending prev l = (run, left) -> l = (run ++ left)%list.
Proof.
  revert prev. induction l as [|cur rest IH]; intros prev run left E.
  - simpl in E. now injection E as <- <-.
  - simpl in E.
    destruct (if descending then (0 <=? comparefn cur prev)%Z
              else (comparefn cur prev <? 0)%Z).
    + now injection E as <- <-.
    + destruct (extendRun comparefn descending cur rest) as [run' left'] eqn:E'.
      injection E as <- <-. simpl. f_equal. now apply (IH cur).
Qed.

Lemma countAndMakeRun_perm (l : list A) :
  forall run left,
    countAndMakeRun comparefn l = (run, left) -> Permutation l (run ++ left).
Proof.
  intros run left E. unfold countAndMakeRun in E.
  destruct l as [|a0 [|a1 rest]].
  - injection E as <- <-. constructor.
  - injection E as <- <-. apply Permutation_refl.
  - destruct (extendRun comparefn (comparefn a1 a0 <? 0)%Z a1 rest) as [r lf] eqn:E'.
    apply extendRun_app in E'. subst rest.
    injection E as <- <-.
    destruct (comparefn a1 a0 <? 0)%Z.
    + change (a0 :: a1 :: r ++ lf)%list with ((a0 :: a1 :: r) ++ lf)%list.
      apply (Permutation_app_tail lf (Permutation_rev (a0 :: a1 :: r))).
    + apply Permutation_refl.
Qed.

Lemma insertPivot_perm (sorted : list A) pivot :
  Permutation (pivot :: sorted) (insertPivot comparefn sorted pivot).
Proof.
  unfold insertPivot.
  set (slot := searchSlot comparefn (length sorted) pivot sorted 0 (length sorted)).
  rewrite <- (firstn_skipn slot sorted) at 1.
  apply Permutation_middle.
Qed.

Lemma fold_insert_perm (left : list A) :
  forall run, Permutation (run ++ left) (fold_left (insertPivot comparefn) left run).
Proof.
  induction left as [|p left IH]; intros run.
  - simpl. rewrite app_nil_r. apply Permutation_refl.
  - simpl. eapply Permutation_trans; [|apply IH].
    eapply Permutation_trans; [apply Permutation_sym, Permutation_middle|].
    apply (Permutation_app_tail left (insertPivot_perm run p)).
Qed.

(** Sorting keeps the elements, whatever the comparator answers. *)
Lemma sort_perm (l : list A) : Permutation l (sort comparefn l).
Proof.
  unfold sort. destruct (countAndMakeRun comparefn l) as [run left] eqn:E.
  eapply Permutation_trans; [apply (countAndMakeRun_perm _ E) | apply fold_insert_perm].
Qed.

End Perm.

Section Ordered.
Variable A : Type.
Variable P : A -> Prop.
Variable comparefn : A -> A -> Z.
Hypothesis Hcons : consistentOn P comparefn.

Let R := notAfterOn P comparefn.

Lemma R_trans a b c : R a b -> R b c -> R a c.
Proof.
  intros (Pa & Pb & Hab) (_ & Pc & Hbc).
  split; [exact Pa | split; [exact Pc|]].
  exact (notAfter_trans Hcons Pa Pb Pc Hab Hbc).
Qed.

Lemma sorted_split (l1 : list A) a l2 :
  StronglySorted R (l1 ++ a :: l2) ->
  Forall (fun x => R x a) l1 /\ Forall (R a) l2.
Proof.
  induction l1 as [|b l1 IH]; simpl; intros H.
  - apply StronglySorted_inv in H. split; [constructor | apply H].
  - apply StronglySorted_inv in H. destruct H as [H Hb].
    destruct (IH H) as [H1 H2]. split; [|exact H2].
    constructor; [|exact H1].
    rewrite Forall_app in Hb. destruct Hb as [_ Hb]. now inversion Hb.
Qed.

Lemma sorted_insert (l1 : list A) p l2 :
  StronglySorted R (l1 ++ l2) ->
  Forall (fun x => R x p) l1 -> Forall (R p) l2 ->
  StronglySorted R (l1 ++ p :: l2).
Proof.
  induction l1 as [|b l1 IH]; simpl; intros H H1 H2.
  - constructor; assumption.
  - apply StronglySorted_inv in H. destruct H as [H Hb].
    inversion H1 as [|? ? Hbp H1']; subst.
    constructor; [now apply IH|].
    rewrite Forall_app in Hb. destruct Hb as [Hb1 Hb2].
    apply Forall_app. split; [exact Hb1|]. constructor; [exact Hbp | exact Hb2].
Qed.

Lemma searchSlot_spec (sorted : list A) (pivot : A) :
  StronglySorted R sorted -> Forall P sorted -> P pivot ->
  forall fuel left right,
    left <= right -> right <= length sorted -> right - left <= fuel ->
    Forall (fun x => R x pivot) (firstn left sorted) ->
    Forall (R pivot) (skipn right sorted) ->
    Forall (fun x => R x pivot)
           (firstn (searchSlot comparefn fuel pivot sorted left right) sorted)
    /\ Forall (R pivot)
              (skipn (searchSlot comparefn fuel pivot sorted left right) sorted).
Proof.
  intros Hs HP Pp. induction fuel as [|fuel IH]; intros left right Hlr Hr Hf Hlo Hhi.
  - simpl. assert (left = right) by lia. subst. now split.
  - cbn [searchSlot]. destruct (Nat.ltb_spec left right) as [Hlt|Hge].
    2:{ assert (left = right) by lia. subst. now split. }
    set (mid := left + (right - left) / 2).
    assert (Hmid : left <= mid /\ mid < right).
    { unfold mid. pose proof (Nat.div_mod_eq (right - left) 2) as D.
      pose proof (Nat.mod_upper_bound (right - left) 2) as M. lia. }
    destruct (nth_error sorted mid) as [m|] eqn:Em.
    2:{ apply nth_error_None in Em. lia. }
    destruct (nth_error_split _ _ Em) as (l1 & l2 & E & L).
    assert (Pm : P m).
    { rewrite Forall_forall in HP. apply HP. rewrite E. apply in_elt. }
    pose proof Hs as Hs'. rewrite E in Hs'.
    destruct (sorted_split _ _ _ Hs') as [Hl1 Hl2].
    destruct (Z.ltb_spec (comparefn pivot m) 0) as [Hb|Hn].
    + apply IH; try lia; try assumption.
      rewrite E, skipn_app, <- L, skipn_all, Nat.sub_diag. simpl.
      constructor.
      * split; [exact Pp | split; [exact Pm|]].
        now apply (before_notAfter Hcons Pp Pm).
      * rewrite Forall_forall in Hl2 |- *. intros x Hx.
        destruct (Hl2 x Hx) as (_ & Px & Hmx).
        split; [exact Pp | split; [exact Px|]].
        apply (before_notAfter Hcons Pp Px).
        exact (before_notAfter_trans Hcons Pp Pm Px Hb Hmx).
    + assert (Rmp : R m pivot) by (split; [exact Pm | split; [exact Pp | exact Hn]]).
      apply IH; try lia; try assumption.
      rewrite E, firstn_app, <- L.
      replace (length l1 + 1 - length l1) with 1 by lia.
      rewrite firstn_all2 by lia. simpl.
      apply Forall_app. split; [|constructor; [exact Rmp | constructor]].
      rewrite Forall_forall in Hl1 |- *. intros x Hx.
      exact (R_trans (Hl1 x Hx) Rmp).
Qed.

Lemma insertPivot_sorted (sorted : list A) pivot :
  StronglySorted R sorted -> Forall P sorted -> P pivot ->
  StronglySorted R (insertPivot comparefn sorted pivot).
Proof.
  intros Hs HP Pp. unfold insertPivot.
  destruct (@searchSlot_spec sorted pivot Hs HP Pp (length sorted) 0 (length sorted))
    as [Hlo Hhi]; try lia.
  - constructor.
  - rewrite skipn_all. constructor.
  - apply sorted_insert; [now rewrite firstn_skipn | exact Hlo | exact Hhi].
Qed.

Lemma fold_insert_sorted (left : list A) :
  forall run,
    StronglySorted R run -> Forall P run -> Forall P left ->
    StronglySorted R (fold_left (insertPivot comparefn) left run).
Proof.
  induction left as [|p left IH]; intros run Hs HP HL; [exact Hs|].
  inversion HL as [|? ? Pp HL']; subst. simpl.
  apply IH; [now apply insertPivot_sorted | | exact HL'].
  apply (Permutation_Forall (insertPivot_perm comparefn run p)).
  now constructor.
Qed.

Lemma extendRun_ascending prev (l : list A) :
  forall run left,
    extendRun comparefn false prev l = (run, left) ->
    P prev -> Forall P l -> Sorted R (prev :: run).
Proof.
  revert prev. induction l as [|cur rest IH]; intros prev run left E Pp HP.
  - simpl in E. injection E as <- <-. repeat constructor.
  - simpl in E. inversion HP as [|? ? Pc HP']; subst.
    destruct (Z.ltb_spec (comparefn cur prev) 0) as [Hb|Hn].
    + injection E as <- <-. repeat constructor.
    + destruct (extendRun comparefn false cur rest) as [run' left'] eqn:E'.
      injection E as <- <-.
      constructor; [now apply (IH cur run' left')|].
      constructor. split; [exact Pp | split; [exact Pc | exact Hn]].
Qed.

Lemma extendRun_descending prev (l : list A) :
  forall run left,
    extendRun comparefn true prev l = (run, left) ->
    P prev -> Forall P l ->
    Sorted (fun x y => beforeOn P comparefn y x) (prev :: run).
Proof.
  revert prev. induction l as [|cur rest IH]; intros prev run left E Pp HP.
  - simpl in E. injection E as <- <-. repeat constructor.
  - simpl in E. inversion HP as [|? ? Pc HP']; subst.
    destruct (Z.leb_spec 0 (comparefn cur prev)) as [Hn|Hb].
    + injection E as <- <-. repeat constructor.
    + destruct (extendRun comparefn true cur rest) as [run' left'] eqn:E'.
      injection E as <- <-.
      constructor; [now apply (IH cur run' left')|].
      constructor. split; [exact Pc | split; [exact Pp | exact Hb]].
Qed.

Lemma descending_reversed (l : list A) :
  StronglySorted (fun x y => beforeOn P comparefn y x) l -> StronglySorted R (rev l).
Proof.
  induction 1 as [|a l Hl IH Ha]; [constructor|].
  simpl. apply sorted_insert.
  - now rewrite app_nil_r.
  - apply Forall_rev. rewrite Forall_forall in Ha |- *. intros x Hx.
    destruct (Ha x Hx) as (Px & Pa & Hb).
    split; [exact Px | split; [exact Pa|]].
    now apply (before_notAfter Hcons Px Pa).
  - constructor.
Qed.

Lemma countAndMakeRun_sorted (l : list A) :
  forall run left,
    countAndMakeRun comparefn l = (run, left) -> Forall P l -> StronglySorted R run.
Proof.
  intros run left E HP. unfold countAndMakeRun in E.
  destruct l as [|a0 [|a1 rest]].
  - injection E as <- <-. constructor.
  - injection E as <- <-. repeat constructor.
  - inversion HP as [|? ? P0 HP1]; subst. inversion HP1 as [|? ? P1 HP2]; subst.
    destruct (Z.ltb_spec (comparefn a1 a0) 0) as [Hb|Hn].
    + destruct (extendRun comparefn true a1 rest) as [r lf] eqn:E'.
      injection E as <- <-.
      change (StronglySorted R (rev (a0 :: a1 :: r))).
      apply descending_reversed. apply Sorted_StronglySorted.
      * intros x y z (Py & Px & Hyx) (Pz & _ & Hzy).
        split; [exact Pz | split; [exact Px|]].
        apply (before_notAfter_trans Hcons Pz Py Px Hzy).
        now apply (before_notAfter Hcons Py Px).
      * constructor; [now apply (extendRun_descending E')|].
        constructor. split; [exact P1 | split; [exact P0 | exact Hb]].
    + destruct (extendRun comparefn false a1 rest) as [r lf] eqn:E'.
      injection E as <- <-.
      apply Sorted_StronglySorted.
      * intros x y z Hxy Hyz. exact (R_trans Hxy Hyz).
      * constructor; [now apply (extendRun_ascending E')|].
        constructor. split; [exact P0 | split; [exact P1 | exact Hn]].
Qed.

(** With a comparator that is consistent on the elements, the result is
    in order: no element sorts before an earlier one. *)
Lemma sort_sorted (l : list A) :
  Forall P l -> StronglySorted (notAfterOn P comparefn) (sort comparefn l).
Proof.
  intros HP. unfold sort.
  destruct (countAndMakeRun comparefn l) as [run left] eqn:E.
  pose proof (countAndMakeRun_perm comparefn l E) as Hperm.
  pose proof (Permutation_Forall Hperm HP) as HP'.
  apply Forall_app in HP'. destruct HP' as [HPr HPl].
  apply fold_insert_sorted; try assumption.
  now apply (countAndMakeRun_sorted E).
Qed.

End Ordered.

End SortFacts.

(** ** Grouping by category *)

Module GroupFacts.
Import Ide Rows.

Lemma mapGet_groupPush grouped p c :
  mapGet (groupPush grouped p) c =
  if String.eqb (category p) c then (mapGet grouped c ++ [p])%list else mapGet grouped c.
Proof.
  induction grouped as [|[k ps] rest IH].
  - simpl. rewrite String.eqb_sym.
    destruct (String.eqb c (category p)); reflexivity.
  - cbn [groupPush]. destruct (String.eqb_spec k (category p)) as [->|Hk].
    + cbn [mapGet]. destruct (String.eqb (category p) c); reflexivity.
    + cbn [mapGet]. destruct (String.eqb_spec k c) as [->|Hc].
      * destruct (String.eqb_spec (category p) c) as [E|_]; [congruence | reflexivity].
      * exact IH.
Qed.

Lemma mapGet_fold ps :
  forall grouped c,
    mapGet (fold_left groupPush ps grouped) c = (mapGet grouped c ++ ofCategory c ps)%list.
Proof.
  induction ps as [|p ps IH]; intros grouped c.
  - simpl. now rewrite app_nil_r.
  - cbn [fold_left]. rewrite IH, mapGet_groupPush. unfold ofCategory. cbn [filter].
    destruct (String.eqb (category p) c); [now rewrite <- app_assoc | reflexivity].
Qed.

(** The group of a category holds the entries of that category, in
    catalog order. *)
Lemma mapGet_groupByCategory ps c : mapGet (groupByCategory ps) c = ofCategory c ps.
Proof. unfold groupByCategory. now rewrite mapGet_fold. Qed.

Lemma keys_groupPush grouped p :
  map fst (groupPush grouped p) =
  if existsb (String.eqb (category p)) (map fst grouped) then map fst grouped
  else (map fst grouped ++ [category p])%list.
Proof.
  induction grouped as [|[k ps] rest IH]; [reflexivity|].
  cbn [groupPush map fst existsb]. rewrite (String.eqb_sym (category p) k).
  destruct (String.eqb k (category p)); [reflexivity|].
  cbn [map fst orb]. rewrite IH.
  destruct (existsb (String.eqb (category p)) (map fst rest)); reflexivity.
Qed.

Lemma existsb_eqb_In s l : existsb (String.eqb s) l = true <-> In s l.
Proof.
  rewrite existsb_exists. split.
  - intros [x [Hx E]]. apply String.eqb_eq in E. now subst.
  - intros H. exists s. split; [exact H | apply String.eqb_refl].
Qed.

Lemma keys_fold ps :
  forall grouped,
    NoDup (map fst grouped) ->
    NoDup (map fst (fold_left groupPush ps grouped))
    /\ forall c, In c (map fst (fold_left groupPush ps grouped)) <->
                 In c (map fst grouped) \/ exists p, In p ps /\ category p = c.
Proof.
  induction ps as [|p ps IH]; intros grouped Hnd.
  - simpl. split; [exact Hnd|]. intros c. split; [now left|].
    intros [H|[p [[] _]]]. exact H.
  - cbn [fold_left].
    assert (Hnd' : NoDup (map fst (groupPush grouped p))).
    { rewrite keys_groupPush.
      destruct (existsb (String.eqb (category p)) (map fst grouped)) eqn:E; [exact Hnd|].
      apply NoDup_app; [exact Hnd | repeat constructor; intros [] |].
      intros a Ha [<-|[]].
      apply existsb_eqb_In in Ha. congruence. }
    destruct (IH _ Hnd') as [H1 H2]. split; [exact H1|].
    intros c. rewrite H2, keys_groupPush.
    destruct (existsb (String.eqb (category p)) (map fst grouped)) eqn:E.
    + apply existsb_eqb_In in E. split.
      * intros [H|[q [Hq Ec]]]; [now left | right; exists q; split; [now right | exact Ec]].
      * intros [H|[q [[<-|Hq] Ec]]]; [now left | left; now subst | right; now exists q].
    + rewrite in_app_iff. split.
      * intros [[H|[<-|[]]]|[q [Hq Ec]]].
        -- now left.
        -- right. exists p. split; [now left | reflexivity].
        -- right. exists q. split; [now right | exact Ec].
      * intros [H|[q [[<-|Hq] Ec]]].
        -- left. now left.
        -- left. right. left. exact Ec.
        -- right. now exists q.
Qed.

(** The keys of the grouping: every category of the catalog, once. *)
Lemma keys_groupByCategory ps :
  NoDup (map fst (groupByCategory ps))
  /\ forall c, In c (map fst (groupByCategory ps)) <-> exists p, In p ps /\ category p = c.
Proof.
  destruct (@keys_fold ps [] (NoDup_nil _)) as [H1 H2]. split; [exact H1|].
  intros c. unfold groupByCategory. rewrite H2. simpl. split.
  - intros [[]|H]. exact H.
  - intros H. now right.
Qed.

End GroupFacts.

(** ** Selections *)

Module SelectionFacts.
Import Selection.

Lemma filter_kept (A : Type) (P : A -> Prop) (f : A -> bool) (l : list A) :
  (forall a, f a = true <-> P a) -> kept P l (filter f l).
Proof.
  intros H. induction l as [|a l IH]; [constructor|].
  cbn [filter]. destruct (f a) eqn:E.
  - apply kept_take; [now apply H | exact IH].
  - apply kept_drop; [|exact IH]. intros Pa. apply H in Pa. congruence.
Qed.

Lemma all_kept (A : Type) (P : A -> Prop) (l : list A) :
  (forall a, P a) -> kept P l l.
Proof.
  intros H. induction l as [|a l IH]; [constructor | now apply kept_take].
Qed.

(** A selection is determined by the list and the property. *)
Lemma kept_unique (A : Type) (P : A -> Prop) (l : list A) :
  forall f g, kept P l f -> kept P l g -> f = g.
Proof.
  induction l as [|a l IH]; intros f g Hf Hg.
  - inversion Hf; inversion Hg; reflexivity.
  - inversion Hf as [|? ? f' Pa Hf'|? ? ? Na Hf']; subst;
      inversion Hg as [|? ? g' Pa' Hg'|? ? ? Na' Hg']; subst.
    + f_equal. now apply IH.
    + contradiction.
    + contradiction.
    + now apply IH.
Qed.

Lemma kept_In (A : Type) (P : A -> Prop) (l found : list A) :
  kept P l found -> forall a, In a found <-> In a l /\ P a.
Proof.
  induction 1 as [|a l f Pa H IH|a l f Na H IH]; intros b.
  - simpl. tauto.
  - simpl. rewrite IH. split.
    + intros [<-|[Hb Pb]]; [split; [now left | exact Pa] | split; [now right | exact Pb]].
    + intros [[<-|Hb] Pb]; [now left | right; now split].
  - simpl. rewrite IH. split.
    + intros [Hb Pb]. split; [now right | exact Pb].
    + intros [[<-|Hb] Pb]; [contradiction | now split].
Qed.

End SelectionFacts.

(** ** The rendered list *)

Module FormatFacts.
Import Ide Rows.

Lemma sortedCategories_perm localeCompare ps :
  Permutation (map fst (groupByCategory ps)) (sortedCategories localeCompare ps).
Proof. apply SortFacts.sort_perm. Qed.

Lemma rowProjects_group c (group : list Project) :
  rowProjects (separatorRow c :: map projectRow group) = group.
Proof.
  unfold rowProjects. cbn [flat_map separatorRow row_value app].
  induction group as [|p g IH]; [reflexivity|].
  cbn [map flat_map projectRow row_value app]. now rewrite IH.
Qed.

Lemma rowProjects_app r1 r2 : rowProjects (r1 ++ r2) = (rowProjects r1 ++ rowProjects r2)%list.
Proof. unfold rowProjects. apply flat_map_app. Qed.

Lemma ofCategory_absent c p ps :
  category p <> c -> ofCategory c (p :: ps) = ofCategory c ps.
Proof.
  intros H. unfold ofCategory. cbn [filter].
  now destruct (String.eqb_spec (category p) c).
Qed.

Lemma groups_absent p ps cats :
  ~ In (category p) cats ->
  flat_map (fun c => ofCategory c (p :: ps)) cats = flat_map (fun c => ofCategory c ps) cats.
Proof.
  induction cats as [|c cs IH]; intros H; [reflexivity|].
  cbn [flat_map]. rewrite IH by (intros Hin; apply H; now right).
  rewrite ofCategory_absent; [reflexivity|].
  intros E. apply H. now left.
Qed.

Lemma groups_present p ps cats :
  NoDup cats -> In (category p) cats ->
  Permutation (p :: flat_map (fun c => ofCategory c ps) cats)
              (flat_map (fun c => ofCategory c (p :: ps)) cats).
Proof.
  induction cats as [|c cs IH]; intros Hnd Hin; [contradiction|].
  inversion Hnd as [|? ? Hnot Hnd']; subst. cbn [flat_map].
  destruct (String.eqb_spec (category p) c) as [E|E].
  - subst c. rewrite groups_absent by exact Hnot.
    unfold ofCategory at 3. cbn [filter]. rewrite String.eqb_refl.
    apply Permutation_refl.
  - rewrite ofCategory_absent by exact E.
    destruct Hin as [Hc|Hin]; [congruence|].
    eapply Permutation_trans; [apply Permutation_middle|].
    apply Permutation_app_head. now apply IH.
Qed.

(** Groups taken for every category, each once, hold every entry once. *)
Lemma groups_cover ps :
  forall cats,
    NoDup cats -> (forall p, In p ps -> In (category p) cats) ->
    Permutation ps (flat_map (fun c => ofCategory c ps) cats).
Proof.
  induction ps as [|p ps IH]; intros cats Hnd Hall.
  - replace (flat_map (fun c => ofCategory c []) cats) with (@nil Project);
      [constructor|].
    induction cats as [|c cs IHc]; [reflexivity|].
    cbn [flat_map]. inversion Hnd; subst. now rewrite <- IHc.
  - eapply Permutation_trans; [|apply groups_present; [exact Hnd | apply Hall; now left]].
    constructor. apply IH; [exact Hnd|]. intros q Hq. apply Hall. now right.
Qed.

Lemma format_flat localeCompare ps :
  formatProjectsWithSeparators localeCompare ps =
  flat_map (fun c => separatorRow c :: map projectRow (ofCategory c ps))
           (sortedCategories localeCompare ps).
Proof.
  unfold formatProjectsWithSeparators. apply flat_map_ext. intros c.
  now rewrite GroupFacts.mapGet_groupByCategory.
Qed.

Lemma rowProjects_format localeCompare ps :
  rowProjects (formatProjectsWithSeparators localeCompare ps) =
  flat_map (fun c => ofCategory c ps) (sortedCategories localeCompare ps).
Proof.
  rewrite format_flat.
  induction (sortedCategories localeCompare ps) as [|c cs IH]; [reflexivity|].
  cbn [flat_map]. rewrite rowProjects_app, rowProjects_group, IH. reflexivity.
Qed.

Lemma sortedCategories_spec localeCompare ps :
  NoDup (sortedCategories localeCompare ps)
  /\ forall c, In c (sortedCategories localeCompare ps) <->
               exists p, In p ps /\ category p = c.
Proof.
  destruct (GroupFacts.keys_groupByCategory ps) as [Hnd Hin].
  pose proof (sortedCategories_perm localeCompare ps) as Hperm.
  split.
  - exact (Permutation_NoDup Hperm Hnd).
  - intros c. rewrite <- Hin. split.
    + apply Permutation_in. now apply Permutation_sym.
    + now apply Permutation_in.
Qed.

End FormatFacts.

(** X1. The rendered list is made of one block per category of the
    entries: a separator row followed by the rows of all entries of that
    category, in the order of the input. Every category of the input has
    exactly one block, so every separator is followed by at least one
    row, and no other category has one. *)
Theorem X1_format_one_block_per_category
    (localeCompare : string -> string -> Z) (projects : list Ide.Project) :
  Ide.formatProjectsWithSeparators localeCompare projects =
    flat_map (fun c => Ide.separatorRow c
                       :: map Ide.projectRow (Rows.ofCategory c projects))
             (Ide.sortedCategories localeCompare projects)
  /\ NoDup (Ide.sortedCategories localeCompare projects)
  /\ forall c, In c (Ide.sortedCategories localeCompare projects) <->
               exists p, In p projects /\ Ide.category p = c.
Proof.
  split; [apply FormatFacts.format_flat|].
  apply FormatFacts.sortedCategories_spec.
Qed.

(** X2. The selectable rows of the rendered list carry the entries of
    the input, each of them once: formatting neither drops nor repeats
    an entry, whatever the comparator of the categories answers. *)
Theorem X2_format_keeps_every_entry
    (localeCompare : string -> string -> Z) (projects : list Ide.Project) :
  Permutation projects
    (Rows.rowProjects (Ide.formatProjectsWithSeparators localeCompare projects)).
Proof.
  rewrite FormatFacts.rowProjects_format.
  destruct (FormatFacts.sortedCategories_spec localeCompare projects) as (Hnd & Hin).
  apply FormatFacts.groups_cover; [exact Hnd|].
  intros p Hp. apply Hin. now exists p.
Qed.

(** ** Orders that come out of a consistent [localeCompare] *)

Module OrderFacts.
Import Ide Cmp.

Lemma byLength_consistent : consistent byLength.
Proof.
  split; unfold notAfter, before, byLength; intros; lia.
Qed.

Lemma byName_consistent localeCompare :
  consistent localeCompare -> consistent (byName localeCompare).
Proof.
  intros [T1 T2 A]. split; unfold notAfter, before, byName in *; intros.
  - now apply (T1 (Scanner.name a) (Scanner.name b) (Scanner.name c)).
  - now apply (T2 (Scanner.name a) (Scanner.name b) (Scanner.name c)).
  - now apply (A (Scanner.name a) (Scanner.name b)).
Qed.

Lemma categoryOrder_plain localeCompare a b :
  a <> "/" -> b <> "/" -> categoryOrder localeCompare a b = localeCompare a b.
Proof.
  intros Ha Hb. unfold categoryOrder.
  destruct (String.eqb_spec a "/"); [contradiction|].
  destruct (String.eqb_spec b "/"); [contradiction | reflexivity].
Qed.

(** Away from the root category the comparator of the categories is
    [localeCompare]. *)
Lemma categoryOrder_consistent localeCompare :
  consistent localeCompare ->
  consistentOn (fun c => c <> "/") (categoryOrder localeCompare).
Proof.
  intros [T1 T2 A]. split; unfold notAfter, before in *; intros a b.
  - intros c Pa Pb Pc. rewrite !categoryOrder_plain by assumption. now apply T1.
  - intros c Pa Pb Pc. rewrite !categoryOrder_plain by assumption. now apply T2.
  - intros Pa Pb. rewrite !categoryOrder_plain by assumption. now apply A.
Qed.

Lemma StronglySorted_weaken (A : Type) (R S : A -> A -> Prop) (l : list A) :
  (forall a b, R a b -> S a b) -> StronglySorted R l -> StronglySorted S l.
Proof.
  intros HRS. induction 1 as [|a l Hl IH Ha]; constructor; [exact IH|].
  eapply Forall_impl; [|exact Ha]. intros b. apply HRS.
Qed.

(** Without the root category the sorted categories are in order. *)
Lemma categories_sorted localeCompare (projects : list Project) :
  consistent localeCompare ->
  Forall (fun p => category p <> "/") projects ->
  StronglySorted (fun a b => (0 <= localeCompare b a)%Z)
                 (sortedCategories localeCompare projects).
Proof.
  intros Hcons Hroot.
  assert (Hkeys : Forall (fun c => c <> "/") (map fst (groupByCategory projects))).
  { apply Forall_forall. intros c Hc.
    apply (proj2 (GroupFacts.keys_groupByCategory projects)) in Hc.
    destruct Hc as [p [Hp <-]]. rewrite Forall_forall in Hroot. now apply Hroot. }
  pose proof (SortFacts.sort_sorted (categoryOrder_consistent Hcons) Hkeys) as Hs.
  unfold sortedCategories.
  revert Hs. apply StronglySorted_weaken.
  intros a b (Pa & Pb & H). unfold notAfter in H.
  now rewrite categoryOrder_plain in H.
Qed.

End OrderFacts.

(** X3. When no entry has the root category [/] and [localeCompare]
    orders strings consistently, the categories of the separators are in
    ascending order: no category sorts before an earlier one. *)
Theorem X3_categories_ascending_without_root
    (localeCompare : string -> string -> Z) (projects : list Ide.Project)
    (Hcons : Cmp.consistent localeCompare)
    (Hroot : Forall (fun p => Ide.category p <> "/") projects) :
  StronglySorted (fun a b => (0 <= localeCompare b a)%Z)
                 (Ide.sortedCategories localeCompare projects).
Proof. now apply OrderFacts.categories_sorted. Qed.

Lemma X3_categories_ascending_witness :
  StronglySorted (fun a b => (0 <= Cmp.byLength b a)%Z)
    (Ide.sortedCategories Cmp.byLength
       [Ide.mkProject "tools" "x" "/w/tools/x" "x (/w/tools/x)";
        Ide.mkProject "web" "shop" "/w/web/shop" "shop (/w/web/shop)";
        Ide.mkProject "tools" "y" "/w/tools/y" "y (/w/tools/y)";
        Ide.mkProject "ai" "bot" "/w/ai/bot" "bot (/w/ai/bot)"]).
Proof.
  apply (@X3_categories_ascending_without_root Cmp.byLength).
  - exact OrderFacts.byLength_consistent.
  - repeat constructor; discriminate.
Defined.

(** ** What a load leaves behind *)

(** X4. After a load with a working directory that is configured and on
    disk, by refresh or not, the cache file holds a valid snapshot for
    that directory and the list of the module is that snapshot sorted by
    name: it has the same repositories, each once, and, with a consistent
    [localeCompare], no repository's name sorts before an earlier one. *)
Theorem X4_loaded_list_is_sorted_snapshot
    (localeCompare : string -> string -> Z) (refresh : bool)
    (st : Ide.ModuleState) (w : Ide.World) (wd : string) (root : Fs.node)
    (Hcfg : Ide.cfg_workingDirectory (Ide.configFile w) = Some wd)
    (Hwd : wd <> "")
    (Hroot : Ide.fs w wd = Some root)
    (Hcons : Cmp.consistent localeCompare) :
  let '(r, st', w') := Ide.loadConfig localeCompare refresh st w in
  r = Return tt
  /\ exists snapshot,
       Cache.readIdeReposCache wd (Ide.cache w') = Return (Some snapshot)
       /\ Ide.autoDiscoveredRepos st' = JsArray.sort (Ide.byName localeCompare) snapshot
       /\ Permutation snapshot (Ide.autoDiscoveredRepos st')
       /\ StronglySorted
            (fun a b => (0 <= localeCompare (Scanner.name b) (Scanner.name a))%Z)
            (Ide.autoDiscoveredRepos st').
Proof.
  assert (Hsorted : forall l,
             StronglySorted
               (fun a b => (0 <= localeCompare (Scanner.name b) (Scanner.name a))%Z)
               (JsArray.sort (Ide.byName localeCompare) l)).
  { intros l.
    assert (HP : Forall (fun _ : Scanner.GitRepository => True) l)
      by (apply Forall_forall; trivial).
    pose proof (SortFacts.sort_sorted (OrderFacts.byName_consistent Hcons) HP) as Hs.
    revert Hs. apply OrderFacts.StronglySorted_weaken.
    intros a b (_ & _ & H). exact H. }
  destruct refresh.
  - rewrite (@LoadFacts.loadConfig_refresh localeCompare w wd root Hcfg Hwd Hroot).
    split; [reflexivity|]. exists (Scanner.findGitRepositories wd root).
    cbn [Ide.cache Ide.autoDiscoveredRepos Ide.setRepos].
    split; [apply CacheFacts.read_after_write|]. split; [reflexivity|].
    split; [apply SortFacts.sort_perm | apply Hsorted].
  - destruct (CacheFacts.read_total wd (Ide.cache w)) as [[l|] Hread].
    + rewrite (@LoadFacts.loadConfig_hit localeCompare w wd root Hcfg Hwd Hroot st l Hread).
      split; [reflexivity|]. exists l.
      cbn [Ide.cache Ide.autoDiscoveredRepos Ide.setRepos].
      split; [exact Hread|]. split; [reflexivity|].
      split; [apply SortFacts.sort_perm | apply Hsorted].
    + rewrite (@LoadFacts.loadConfig_miss localeCompare w wd root Hcfg Hwd Hroot st Hread).
      split; [reflexivity|]. exists (Scanner.findGitRepositories wd root).
      cbn [Ide.cache Ide.autoDiscoveredRepos Ide.setRepos].
      split; [apply CacheFacts.read_after_write|]. split; [reflexivity|].
      split; [apply SortFacts.sort_perm | apply Hsorted].
Qed.

Lemma X4_loaded_list_witness :
  let '(r, st', w') :=
    Ide.loadConfig Cmp.byLength false Ide.initialState Sample.coldWorld in
  r = Return tt
  /\ exists snapshot,
       Cache.readIdeReposCache "/x" (Ide.cache w') = Return (Some snapshot)
       /\ Ide.autoDiscoveredRepos st' = JsArray.sort (Ide.byName Cmp.byLength) snapshot
       /\ Permutation snapshot (Ide.autoDiscoveredRepos st')
       /\ StronglySorted
            (fun a b => (0 <= Cmp.byLength (Scanner.name b) (Scanner.name a))%Z)
            (Ide.autoDiscoveredRepos st').
Proof.
  assert (Hne : "/x" <> "") by discriminate.
  exact (@X4_loaded_list_is_sorted_snapshot Cmp.byLength false Ide.initialState
           Sample.coldWorld "/x" Sample.xTree eq_refl Hne eq_refl
           OrderFacts.byLength_consistent).
Defined.

(** X5. When the configured working directory is not on disk, a load, by
    refresh or not, raises at once: nothing is scanned, the cache file is
    neither read nor written, and the list of the module is what it was. *)
Theorem X5_missing_working_directory_fails_fast
    (localeCompare : string -> string -> Z) (refresh : bool)
    (st : Ide.ModuleState) (w : Ide.World) (wd : string)
    (Hcfg : Ide.cfg_workingDirectory (Ide.configFile w) = Some wd)
    (Hwd : wd <> "")
    (Hmissing : Ide.fs w wd = None) :
  let '(r, st', w') := Ide.loadConfig localeCompare refresh st w in
  r = Throw /\ w' = w
  /\ Ide.autoDiscoveredRepos st' = Ide.autoDiscoveredRepos st
  /\ Ide.workingDirectory st' = Some wd.
Proof.
  unfold Ide.loadConfig.
  rewrite LoadFacts.readConfig_workingDirectory, Hcfg, LoadFacts.truthy_some by assumption.
  unfold Ide.existsSync. rewrite Hmissing. cbn. repeat split.
Qed.

Lemma X5_missing_working_directory_witness :
  let w := Ide.mkWorld (Ide.mkConfig (Some "/gone") None) Sample.xFs Sample.staleCache 7 [] in
  let '(r, st', w') := Ide.loadConfig Sample.codeCompare true Ide.initialState w in
  r = Throw /\ w' = w
  /\ Ide.autoDiscoveredRepos st' = []
  /\ Ide.workingDirectory st' = Some "/gone".
Proof.
  assert (Hne : "/gone" <> "") by discriminate.
  exact (@X5_missing_working_directory_fails_fast Sample.codeCompare true Ide.initialState
           (Ide.mkWorld (Ide.mkConfig (Some "/gone") None) Sample.xFs Sample.staleCache 7 [])
           "/gone" eq_refl Hne eq_refl).
Defined.

(** X6. Without a working directory in the configuration (none, or the
    empty string), a load, by refresh or not, touches nothing outside:
    no scan, no cache read or write. It takes the manual map of the
    configuration and leaves the discovered list as it was. *)
Theorem X6_manual_mode_load_touches_nothing
    (localeCompare : string -> string -> Z) (refresh : bool)
    (st : Ide.ModuleState) (w : Ide.World)
    (Hnone : Ide.truthy (Ide.cfg_workingDirectory (Ide.configFile w)) = false) :
  let '(r, st', w') := Ide.loadConfig localeCompare refresh st w in
  r = Return tt /\ w' = w
  /\ Ide.reposConfig st' = Ide.cfg_repos (Ide.configFile w)
  /\ Ide.autoDiscoveredRepos st' = Ide.autoDiscoveredRepos st
  /\ Ide.workingDirectory st' = Ide.workingDirectory st.
Proof.
  unfold Ide.loadConfig.
  rewrite LoadFacts.readConfig_workingDirectory, Hnone. cbn.
  repeat split.
  unfold Ide.readConfig.
  destruct (Ide.cfg_repos (Ide.configFile w)) eqn:E; [exact E|].
  rewrite Hnone. exact E.
Qed.

Lemma X6_manual_mode_load_witness :
  let w := Ide.mkWorld (Ide.mkConfig (Some "") (Some Sample.manualA))
                       Sample.xFs Sample.staleCache 7 [] in
  let '(r, st', w') := Ide.loadConfig Sample.codeCompare true Ide.initialState w in
  r = Return tt /\ w' = w
  /\ Ide.reposConfig st' = Some Sample.manualA
  /\ Ide.autoDiscoveredRepos st' = []
  /\ Ide.workingDirectory st' = None.
Proof.
  exact (@X6_manual_mode_load_touches_nothing Sample.codeCompare true Ide.initialState
           (Ide.mkWorld (Ide.mkConfig (Some "") (Some Sample.manualA))
                        Sample.xFs Sample.staleCache 7 [])
           eq_refl).
Defined.

(** ** More on the search *)

Module SearchMore.
Import Str Ide Blank.

Lemma trimStart_blank s : allSpaces s = true -> trimStart s = "".
Proof.
  induction s as [|c r IH]; [reflexivity|].
  simpl. intros H. apply andb_true_iff in H. destruct H as [Hc Hr].
  rewrite Hc. now apply IH.
Qed.

Lemma includes_empty s : includes s "" = true.
Proof. destruct s; reflexivity. Qed.

Lemma keywords_blank input : allSpaces input = true -> keywords input = [""].
Proof.
  intros H. unfold keywords.
  assert (Hl : allSpaces (toLowerCase input) = true).
  { induction input as [|c r IH]; [reflexivity|].
    simpl in *. apply andb_true_iff in H. destruct H as [Hc Hr].
    rewrite SearchFacts.is_space_lower, Hc. now apply IH. }
  unfold trim. rewrite (trimStart_blank _ Hl). reflexivity.
Qed.

Lemma lower_ascii_idem c : lower_ascii (lower_ascii c) = lower_ascii c.
Proof. destruct c as [[] [] [] [] [] [] [] []]; reflexivity. Qed.

Lemma toLowerCase_idem s : toLowerCase (toLowerCase s) = toLowerCase s.
Proof.
  induction s as [|c r IH]; [reflexivity|]. simpl. now rewrite lower_ascii_idem, IH.
Qed.

Lemma filter_all (A : Type) (f : A -> bool) (l : list A) :
  (forall a, In a l -> f a = true) -> filter f l = l.
Proof.
  induction l as [|a l IH]; intros H; [reflexivity|].
  simpl. rewrite (H a) by now left.
  f_equal. apply IH. intros b Hb. apply H. now right.
Qed.

End SearchMore.

(** X7. A search string that holds white space only keeps every entry
    of the catalog: its one keyword is the empty string, which occurs in
    every text. *)
Theorem X7_blank_search_keeps_everything
    (allProjects : list Ide.Project) (input : string)
    (Hblank : Blank.allSpaces input = true) :
  Ide.filterProjects allProjects input = allProjects.
Proof.
  unfold Ide.filterProjects.
  destruct (String.eqb input ""); [reflexivity|]. simpl.
  rewrite (SearchMore.keywords_blank _ Hblank).
  apply SearchMore.filter_all. intros p _. simpl.
  now rewrite SearchMore.includes_empty.
Qed.

Lemma X7_blank_search_witness :
  Ide.filterProjects
    [Ide.mkProject "web" "shop" "/x/web/shop" "shop (/x/web/shop)"] "   "
  = [Ide.mkProject "web" "shop" "/x/web/shop" "shop (/x/web/shop)"].
Proof.
  apply (@X7_blank_search_keeps_everything
           [Ide.mkProject "web" "shop" "/x/web/shop" "shop (/x/web/shop)"] "   ").
  reflexivity.
Defined.

(** X8. The search does not look at the letter case of the search
    string: two strings with the same lower-case form select the same
    entries. *)
Theorem X8_search_ignores_case_of_input
    (allProjects : list Ide.Project) (input1 input2 : string)
    (Hsame : Str.toLowerCase input1 = Str.toLowerCase input2) :
  Ide.filterProjects allProjects input1 = Ide.filterProjects allProjects input2.
Proof.
  unfold Ide.filterProjects, Ide.keywords. rewrite Hsame.
  destruct (String.eqb_spec input1 "") as [E1|N1], (String.eqb_spec input2 "") as [E2|N2];
    try reflexivity; exfalso.
  - subst input1. simpl in Hsame. symmetry in Hsame.
    apply (proj1 (SearchFacts.toLowerCase_empty _)) in Hsame. exact (N2 Hsame).
  - subst input2. simpl in Hsame.
    apply (proj1 (SearchFacts.toLowerCase_empty _)) in Hsame. exact (N1 Hsame).
Qed.

Lemma X8_search_ignores_case_witness :
  Ide.filterProjects
    [Ide.mkProject "web" "Shop" "/x/web/Shop" "Shop (/x/web/Shop)"] "SHOP Web"
  = Ide.filterProjects
    [Ide.mkProject "web" "Shop" "/x/web/Shop" "Shop (/x/web/Shop)"] "shop wEB".
Proof.
  apply (@X8_search_ignores_case_of_input
           [Ide.mkProject "web" "Shop" "/x/web/Shop" "Shop (/x/web/Shop)"]
           "SHOP Web" "shop wEB").
  reflexivity.
Defined.

(** X9. The search judges every entry on its own and keeps the order of
    the catalog: the result for two catalogs put one after the other is
    the two results put one after the other, and searching the result
    again with the same string changes nothing. *)
Theorem X9_search_is_entrywise_and_stable
    (catalog1 catalog2 : list Ide.Project) (input : string) :
  Ide.filterProjects (catalog1 ++ catalog2) input =
    (Ide.filterProjects catalog1 input ++ Ide.filterProjects catalog2 input)%list
  /\ Ide.filterProjects (Ide.filterProjects catalog1 input) input =
     Ide.filterProjects catalog1 input.
Proof.
  unfold Ide.filterProjects. destruct (String.eqb input ""); simpl.
  - split; reflexivity.
  - split; [apply filter_app|].
    apply SearchMore.filter_all. intros p Hp. now apply filter_In in Hp.
Qed.

(** ** The catalog and the rows of the picker *)

Module CatalogMore.
Import Ide Rows.

Lemma rowProjects_plain (f : Project -> string) (ps : list Project) :
  rowProjects (map (fun p => mkRow (f p) (Some p) None) ps) = ps.
Proof.
  unfold rowProjects. induction ps as [|p ps IH]; [reflexivity|].
  cbn [map flat_map row_value app]. now rewrite IH.
Qed.

Lemma separatorLabels_plain (f : Project -> string) (ps : list Project) :
  separatorLabels (map (fun p => mkRow (f p) (Some p) None) ps) = [].
Proof.
  unfold separatorLabels. induction ps as [|p ps IH]; [reflexivity|].
  cbn [map filter row_disabled]. exact IH.
Qed.

Lemma length_flat_map (A B : Type) (f : A -> list B) (l : list A) :
  length (flat_map f l) = list_sum (map (fun a => length (f a)) l).
Proof.
  induction l as [|a l IH]; [reflexivity|].
  cbn [flat_map map list_sum]. now rewrite length_app, IH.
Qed.

End CatalogMore.

(** X10. In manual mode the catalog is the manual map flattened: it has
    one entry for every project of every category, labelled with the
    project name and the category, and nothing else; its length is the
    number of projects of the map. *)
Theorem X10_manual_catalog_is_flattened_map
    (st : Ide.ModuleState) (cfg : Ide.ReposConfig)
    (Hmanual : Ide.truthy (Ide.workingDirectory st) = false)
    (Hcfg : Ide.reposConfig st = Some cfg) :
  (forall p,
      In p (Ide.getAllProjects st) <->
      exists cat projects n path,
        In (cat, projects) cfg /\ In (n, path) projects
        /\ p = Ide.mkProject cat n path (n ++ " (" ++ cat ++ ")"))
  /\ length (Ide.getAllProjects st) =
     list_sum (map (fun cp : string * list (string * string) => length (snd cp)) cfg).
Proof.
  unfold Ide.getAllProjects. rewrite Hmanual, Hcfg. split.
  - intros p. rewrite in_flat_map. split.
    + intros [[cat projects] [Hin Hp]]. apply in_map_iff in Hp.
      destruct Hp as [[n path] [<- Hnp]]. now exists cat, projects, n, path.
    + intros (cat & projects & n & path & Hin & Hnp & ->).
      exists (cat, projects). split; [exact Hin|].
      apply in_map_iff. now exists (n, path).
  - rewrite CatalogMore.length_flat_map. f_equal. apply map_ext.
    intros [cat projects]. apply length_map.
Qed.

Lemma X10_manual_catalog_witness :
  let st := Ide.mkState (Some Sample.manualB) None None [] in
  (forall p,
      In p (Ide.getAllProjects st) <->
      exists cat projects n path,
        In (cat, projects) Sample.manualB /\ In (n, path) projects
        /\ p = Ide.mkProject cat n path (n ++ " (" ++ cat ++ ")"))
  /\ length (Ide.getAllProjects st) = 2.
Proof.
  exact (@X10_manual_catalog_is_flattened_map
           (Ide.mkState (Some Sample.manualB) None None []) Sample.manualB eq_refl eq_refl).
Defined.

(** X11. In manual mode the picker shows the matching entries and
    nothing else: one selectable row per match, in catalog order,
    labelled with the entry's display text, and no separator row. *)
Theorem X11_manual_picker_rows
    (localeCompare : string -> string -> Z) (st : Ide.ModuleState) (input : string)
    (Hmanual : Ide.truthy (Ide.workingDirectory st) = false) :
  let rows := Ide.searchAllProjects localeCompare st input in
  let matches := Ide.filterProjects (Ide.getAllProjects st) input in
  Rows.rowProjects rows = matches
  /\ map Ide.row_name rows = map Ide.display matches
  /\ Ide.separatorLabels rows = [].
Proof.
  cbv zeta. unfold Ide.searchAllProjects. rewrite Hmanual.
  split; [apply CatalogMore.rowProjects_plain | split].
  - rewrite map_map. reflexivity.
  - apply CatalogMore.separatorLabels_plain.
Qed.

Lemma X11_manual_picker_witness :
  let st := Ide.mkState (Some Sample.manualB) None None [] in
  let rows := Ide.searchAllProjects Sample.codeCompare st "ci" in
  let matches := Ide.filterProjects (Ide.getAllProjects st) "ci" in
  Rows.rowProjects rows = matches
  /\ map Ide.row_name rows = map Ide.display matches
  /\ Ide.separatorLabels rows = [].
Proof.
  exact (@X11_manual_picker_rows Sample.codeCompare
           (Ide.mkState (Some Sample.manualB) None None []) "ci" eq_refl).
Defined.

(** X12. In auto-discovery mode the selectable rows of the picker carry
    the matching entries, each of them once, and the list is empty
    exactly when nothing matches: a separator is never shown alone. *)
Theorem X12_auto_picker_rows
    (localeCompare : string -> string -> Z) (st : Ide.ModuleState) (input : string)
    (Hauto : Ide.truthy (Ide.workingDirectory st) = true) :
  let rows := Ide.searchAllProjects localeCompare st input in
  let matches := Ide.filterProjects (Ide.getAllProjects st) input in
  Permutation matches (Rows.rowProjects rows)
  /\ (rows = [] <-> matches = []).
Proof.
  cbv zeta. unfold Ide.searchAllProjects. rewrite Hauto.
  set (matches := Ide.filterProjects (Ide.getAllProjects st) input).
  assert (Hperm : Permutation matches
                    (Rows.rowProjects (Ide.formatProjectsWithSeparators localeCompare matches))).
  { rewrite FormatFacts.rowProjects_format.
    destruct (FormatFacts.sortedCategories_spec localeCompare matches) as (Hnd & Hin).
    apply FormatFacts.groups_cover; [exact Hnd|].
    intros p Hp. apply Hin. now exists p. }
  split; [exact Hperm|]. split.
  - intros E. rewrite E in Hperm. simpl in Hperm.
    apply Permutation_sym in Hperm. now apply Permutation_nil in Hperm.
  - intros E. rewrite E. reflexivity.
Qed.

Lemma X12_auto_picker_witness :
  let st := Ide.mkState None None (Some "/x") [Scanner.mkRepo "app" "/x/app" "app"] in
  let rows := Ide.searchAllProjects Sample.codeCompare st "zzz" in
  let matches := Ide.filterProjects (Ide.getAllProjects st) "zzz" in
  Permutation matches (Rows.rowProjects rows)
  /\ (rows = [] <-> matches = []).
Proof.
  exact (@X12_auto_picker_rows Sample.codeCompare
           (Ide.mkState None None (Some "/x") [Scanner.mkRepo "app" "/x/app" "app"])
           "zzz" eq_refl).
Defined.

(** ** The two-step selection *)

Module TwoStepFacts.
Import Ide TwoStep.

(** A load in auto-discovery mode leaves the manual map of the module as
    it was. *)
Lemma loadConfig_auto_keeps_reposConfig localeCompare refresh st w :
  truthy (cfg_workingDirectory (configFile w)) = true ->
  reposConfig (snd (fst (loadConfig localeCompare refresh st w))) = reposConfig st.
Proof.
  intros Ht. unfold loadConfig.
  rewrite LoadFacts.readConfig_workingDirectory, Ht.
  destruct (negb (existsSync w _)); [reflexivity|].
  destruct refresh; [reflexivity|].
  unfold readWorld.
  destruct (Cache.readIdeReposCache _ (cache w)) as [[l|]|]; reflexivity.
Qed.

Lemma loadConfig_manual localeCompare refresh st w :
  truthy (cfg_workingDirectory (configFile w)) = false ->
  loadConfig localeCompare refresh st w =
  (Return tt,
   mkState (cfg_repos (configFile w)) (currentCategory st) (workingDirectory st)
           (autoDiscoveredRepos st),
   w).
Proof.
  intros Ht. unfold loadConfig.
  rewrite LoadFacts.readConfig_workingDirectory, Ht.
  unfold readConfig. destruct (cfg_repos (configFile w)) eqn:E; rewrite ?Ht, E; reflexivity.
Qed.

End TwoStepFacts.

(** X13. With a manual map in the module, the category search loads
    nothing and returns the categories of the map, in the order of the
    map and each as often as it occurs there, keeping exactly those whose
    lower-case name holds the whole lower-cased input as one piece (all
    of them for an empty input): the input is not split into keywords. *)
Theorem X13_category_search
    (localeCompare : string -> string -> Z)
    (st : Ide.ModuleState) (w : Ide.World) (cfg : Ide.ReposConfig) (input : string)
    (Hcfg : Ide.reposConfig st = Some cfg) :
  exists found,
    TwoStep.searchCategories localeCompare st w input = (Return found, st, w)
    /\ Selection.kept
         (fun c => input = ""
                   \/ exists pre post,
                        Str.toLowerCase c = pre ++ Str.toLowerCase input ++ post)
         (map fst cfg) found
    /\ (input = "" -> found = map fst cfg).
Proof.
  unfold TwoStep.searchCategories, TwoStep.ensureLoaded. rewrite Hcfg.
  cbv beta iota zeta. rewrite Hcfg.
  destruct (String.eqb_spec input "") as [->|Hne].
  - eexists. split; [reflexivity|]. split; [|reflexivity].
    apply SelectionFacts.all_kept. intros c. now left.
  - eexists. split; [reflexivity|]. split; [|intros H; contradiction].
    apply SelectionFacts.filter_kept. intros c.
    rewrite StrFacts.includes_spec. split; [intros H; now right|].
    intros [H|H]; [contradiction | exact H].
Qed.

Lemma X13_category_search_witness :
  exists found,
    TwoStep.searchCategories Sample.codeCompare
      (Ide.mkState (Some [("apps web", []); ("Web Apps", []); ("ops", []);
                          ("my web apps", [])]) None None [])
      Sample.coldWorld "web apps"
    = (Return found,
       Ide.mkState (Some [("apps web", []); ("Web Apps", []); ("ops", []);
                          ("my web apps", [])]) None None [],
       Sample.coldWorld)
    /\ found = ["Web Apps"; "my web apps"].
Proof.
  destruct (@X13_category_search Sample.codeCompare
              (Ide.mkState (Some [("apps web", []); ("Web Apps", []); ("ops", []);
                                  ("my web apps", [])]) None None [])
              Sample.coldWorld
              [("apps web", []); ("Web Apps", []); ("ops", []); ("my web apps", [])]
              "web apps" eq_refl) as (found & E & _ & _).
  exists found. split; [exact E|].
  vm_compute in E. now injection E as <-.
Defined.

(** X14. When the module has no manual map and the configuration gives
    none (a working directory is configured, or the file has no [repos]),
    the category search cannot answer: it loads the configuration and
    then raises, for every input. *)
Theorem X14_category_search_without_map_raises
    (localeCompare : string -> string -> Z)
    (st : Ide.ModuleState) (w : Ide.World) (input : string)
    (Hnone : Ide.reposConfig st = None)
    (Hcfg : Ide.truthy (Ide.cfg_workingDirectory (Ide.configFile w)) = true
            \/ Ide.cfg_repos (Ide.configFile w) = None) :
  fst (fst (TwoStep.searchCategories localeCompare st w input)) = Throw.
Proof.
  unfold TwoStep.searchCategories, TwoStep.ensureLoaded. rewrite Hnone.
  destruct (Ide.truthy (Ide.cfg_workingDirectory (Ide.configFile w))) eqn:Ht.
  - pose proof (@TwoStepFacts.loadConfig_auto_keeps_reposConfig localeCompare false st w Ht)
      as Hk.
    destruct (Ide.loadConfig localeCompare false st w) as [[r st1] w1].
    cbn [fst snd] in Hk. destruct r; [|reflexivity].
    rewrite Hk, Hnone. reflexivity.
  - destruct Hcfg as [Hc|Hc]; [discriminate|].
    rewrite (TwoStepFacts.loadConfig_manual localeCompare false st w Ht).
    cbn [Ide.reposConfig]. rewrite Hc. reflexivity.
Qed.

Lemma X14_category_search_raises_witness :
  fst (fst (TwoStep.searchCategories Sample.codeCompare Ide.initialState
              (Ide.mkWorld (Ide.mkConfig None None) Sample.xFs Cache.Missing 0 []) "a"))
  = Throw.
Proof.
  apply (@X14_category_search_without_map_raises Sample.codeCompare Ide.initialState
           (Ide.mkWorld (Ide.mkConfig None None) Sample.xFs Cache.Missing 0 []) "a").
  - reflexivity.
  - right. reflexivity.
Defined.

(** X15. With a manual map in the module and a current category, the
    project search loads nothing and returns names of projects of that
    category only: a name is returned exactly when one of its projects
    there has the lower-cased input inside its lower-case name or inside
    its lower-case path, or the input is empty; a category that the map
    does not have gives the empty list. The category name and the other
    categories are not searched. *)
Theorem X15_project_search
    (localeCompare : string -> string -> Z)
    (st : Ide.ModuleState) (w : Ide.World) (cfg : Ide.ReposConfig)
    (cat input : string)
    (Hcfg : Ide.reposConfig st = Some cfg)
    (Hcat : Ide.currentCategory st = Some cat)
    (Hne : cat <> "") :
  exists names,
    TwoStep.searchProjects localeCompare st w input = (Return names, st, w)
    /\ forall n,
         In n names <->
         exists projects path,
           TwoStep.categoryProjects cfg cat = Some projects
           /\ In (n, path) projects
           /\ (input = ""
               \/ (exists pre post,
                      Str.toLowerCase n = pre ++ Str.toLowerCase input ++ post)
               \/ (exists pre post,
                      Str.toLowerCase path = pre ++ Str.toLowerCase input ++ post)).
Proof.
  unfold TwoStep.searchProjects, TwoStep.ensureLoaded. rewrite Hcfg.
  cbv beta iota zeta. rewrite Hcfg, Hcat.
  rewrite (LoadFacts.truthy_some Hne). cbn [negb].
  destruct (TwoStep.categoryProjects cfg cat) as [projects|].
  2:{ exists []. split; [reflexivity|]. intros n. split; [intros []|].
      intros (ps & path & E & _). discriminate E. }
  destruct (String.eqb_spec input "") as [->|Hin].
  - eexists. split; [reflexivity|]. intros n. rewrite in_map_iff. split.
    + intros [[m path] [<- H]]. exists projects, path. repeat split; [exact H | now left].
    + intros (ps & path & E & H & _). injection E as <-. now exists (n, path).
  - eexists. split; [reflexivity|]. intros n. rewrite in_map_iff. split.
    + intros [[m path] [<- H]]. apply filter_In in H. destruct H as [H Hm].
      cbn [fst snd] in Hm. apply orb_true_iff in Hm.
      rewrite !StrFacts.includes_spec in Hm.
      exists projects, path. repeat split; [exact H | now right].
    + intros (ps & path & E & H & Hm). injection E as <-.
      exists (n, path). split; [reflexivity|]. apply filter_In. split; [exact H|].
      cbn [fst snd]. apply orb_true_iff. rewrite !StrFacts.includes_spec.
      destruct Hm as [Hm|Hm]; [contradiction | exact Hm].
Qed.

Lemma X15_project_search_witness :
  exists names,
    TwoStep.searchProjects Sample.codeCompare
      (Ide.mkState (Some Sample.manualB) (Some "ops") None []) Sample.coldWorld "SRV/C"
    = (Return names, Ide.mkState (Some Sample.manualB) (Some "ops") None [],
       Sample.coldWorld)
    /\ names = ["ci"].
Proof.
  assert (Hne : "ops" <> "") by discriminate.
  destruct (@X15_project_search Sample.codeCompare
              (Ide.mkState (Some Sample.manualB) (Some "ops") None []) Sample.coldWorld
              Sample.manualB "ops" "SRV/C" eq_refl eq_refl Hne) as (names & E & _).
  exists names. split; [exact E|].
  vm_compute in E. now injection E as <-.
Defined.

(** ** What a scan finds *)

Module OuterFacts.
Import Fs Scanner Walk Outer.

Lemma outermostRepo_dir chain x : outermostRepo chain x = true -> isDirectory x = true.
Proof. destruct chain, x; try discriminate; reflexivity. Qed.

Lemma chains_outermost x :
  forall chain, In chain (repoChains x) <-> outermostRepo chain x = true.
Proof.
  induction x as [| |perm entries IH] using ScanFacts.node_induction; intros chain.
  - split; [intros [] | destruct chain; discriminate].
  - split; [intros [] | destruct chain; discriminate].
  - rewrite Forall_forall in IH. split.
    + intros Hc.
      destruct (ChainFacts.chains_cases _ _ _ Hc) as [[Hm ->]|[Hm ->]]; [exact Hm|].
      apply (ChainFacts.chains_of_listed _ _ Hm) in Hc.
      destruct Hc as (n & p & es & c' & Hin & -> & Hc').
      cbn [outermostRepo]. rewrite Hm. cbn [negb andb].
      apply existsb_exists. exists (n, Dir p es). split; [exact Hin|].
      cbn [fst snd]. rewrite String.eqb_refl. cbn [andb].
      now apply (IH _ Hin).
    + intros Ho. destruct chain as [|n rest].
      * cbn [outermostRepo] in Ho. cbn [repoChains]. rewrite Ho. now left.
      * destruct perm; try discriminate Ho.
        cbn [outermostRepo] in Ho. apply andb_true_iff in Ho. destruct Ho as [Hm Hex].
        apply negb_true_iff in Hm.
        apply existsb_exists in Hex. destruct Hex as [[m c] [Hin Hc]].
        cbn [fst snd] in Hc. apply andb_true_iff in Hc. destruct Hc as [En Hc].
        apply String.eqb_eq in En. subst m.
        pose proof (outermostRepo_dir _ _ Hc) as Hd.
        destruct c as [| |p es]; try discriminate Hd.
        apply (ChainFacts.chains_of_listed _ _ Hm).
        exists n, p, es, rest. repeat split; [exact Hin|].
        now apply (IH _ Hin).
Qed.

End OuterFacts.

(** X16. A scan reports exactly the outermost repositories it can reach:
    a path is in the result if and only if it is the scan root followed
    by a chain of directory names that ends at a directory with a visible
    repository marker and passes only through directories that can be
    listed and show no marker. *)
Theorem X16_scan_reports_outermost_repositories
    (wd : string) (root : Fs.node) (p : string) :
  In p (map Scanner.path (Scanner.findGitRepositories wd root)) <->
  exists chain, Outer.outermostRepo chain root = true /\ p = Path.joins wd chain.
Proof.
  unfold Scanner.findGitRepositories.
  fold (Walk.found wd wd Scanner.rootSentinel root).
  rewrite ScanFacts.found_paths, in_map_iff. split.
  - intros [chain [<- Hc]]. exists chain. split; [|reflexivity].
    now apply OuterFacts.chains_outermost.
  - intros [chain [Ho ->]]. exists chain. split; [reflexivity|].
    now apply OuterFacts.chains_outermost.
Qed.

Module NameFacts.
Import Fs Scanner Walk Path.

Lemma basename_from_plain n :
  forall cur, hasSlash n = false -> basename_from cur n = cur ++ n.
Proof.
  induction n as [|c n IH]; intros cur H.
  - simpl. now rewrite StrFacts.append_nil_r.
  - simpl in H. apply orb_false_iff in H. destruct H as [Hc Hn].
    cbn [basename_from]. rewrite Hc, (IH _ Hn), StrFacts.append_assoc. reflexivity.
Qed.

Lemma basename_from_sep x :
  forall cur n, n <> "" -> hasSlash n = false ->
                basename_from cur (x ++ String slash n) = n.
Proof.
  induction x as [|c x IH]; intros cur n Hne Hn.
  - cbn [append basename_from]. rewrite Ascii.eqb_refl.
    destruct n as [|a n]; [contradiction|].
    rewrite basename_from_plain by exact Hn. reflexivity.
  - cbn [append basename_from]. destruct (Ascii.eqb c slash).
    + destruct (x ++ String slash n) eqn:E.
      * destruct x; discriminate E.
      * rewrite <- E. now apply IH.
    + now apply IH.
Qed.

Lemma endsWithSlash_split d :
  endsWithSlash d = true -> exists d', d = d' ++ String slash "".
Proof.
  induction d as [|c d IH]; [discriminate|].
  cbn [endsWithSlash]. destruct d as [|c' d'].
  - intros H. apply Ascii.eqb_eq in H. subst c. now exists "".
  - intros H. destruct (IH H) as [d0 E]. exists (String c d0). simpl. now rewrite <- E.
Qed.

(** The base name of a joined path is the name that was joined. *)
Lemma basename_join d n : segment n -> basename (join d n) = n.
Proof.
  intros [Hne Hn]. unfold basename, join.
  destruct (endsWithSlash d) eqn:E.
  - destruct (endsWithSlash_split _ E) as [d' ->].
    rewrite StrFacts.append_assoc. now apply basename_from_sep.
  - now apply basename_from_sep.
Qed.

Lemma last_default (A : Type) (l : list A) :
  forall a d d', last (a :: l) d = last (a :: l) d'.
Proof.
  induction l as [|b l IH]; intros a d d'; [reflexivity|].
  change (last (b :: l) d = last (b :: l) d'). apply IH.
Qed.

Lemma basename_joins ns :
  forall d n, Forall segment (n :: ns) -> basename (joins d (n :: ns)) = last (n :: ns) n.
Proof.
  induction ns as [|m ms IH]; intros d n H.
  - inversion H; subst. now apply basename_join.
  - inversion H as [|? ? Hn H']; subst.
    change (joins d (n :: m :: ms)) with (joins (join d n) (m :: ms)).
    rewrite (IH (join d n) m H').
    change (last (n :: m :: ms) n) with (last (m :: ms) n). apply last_default.
Qed.

(** Below the scan root every entry keeps the top-level folder the scan
    came with, is named after its directory, and lies on a chain of the
    scan. *)
Lemma found_below wd x :
  wellFormed x = true ->
  forall dir tlf,
    String.length wd < String.length dir ->
    Forall (fun r => topLevelFolder r = tlf
                     /\ name r = basename (path r)
                     /\ exists chain, In chain (repoChains x) /\ path r = joins dir chain)
           (found wd dir tlf x).
Proof.
  induction x as [| |perm entries IH] using ScanFacts.node_induction;
    intros Hwf dir tlf Hlen; try constructor.
  rewrite ScanFacts.found_dir. cbn [repoChains].
  destruct (existsSync_git perm entries) eqn:Hm.
  - constructor; [|constructor]. cbn [topLevelFolder name path].
    repeat split. exists []. split; [now left | reflexivity].
  - destruct perm; try constructor.
    destruct (ChainFacts.wellFormed_dir _ _ Hwf) as (Hseg & _ & Hsub).
    apply Forall_forall. intros r Hr.
    apply in_flat_map in Hr. destruct Hr as [[n c] [Hin Hr]].
    unfold foundIn in Hr. cbn [fst snd] in Hr.
    destruct c as [| |p es]; try contradiction.
    rewrite Forall_forall in IH, Hseg, Hsub.
    assert (Hn : segment n).
    { apply Hseg. change n with (fst (n, Dir p es)). now apply in_map. }
    assert (Hne : (dir =? wd) = false).
    { apply String.eqb_neq. intros ->. lia. }
    rewrite Hne in Hr.
    pose proof (PathFacts.length_join dir (proj1 Hn)) as Hl.
    pose proof (IH _ Hin (Hsub _ Hin) (join dir n) tlf ltac:(lia)) as Hall.
    rewrite Forall_forall in Hall.
    destruct (Hall r Hr) as (Ht & Hnm & chain & Hc & Hp).
    split; [exact Ht | split; [exact Hnm|]].
    exists (n :: chain). split; [|exact Hp].
    apply in_flat_map. exists (n, Dir p es). split; [exact Hin|].
    cbn [fst snd]. now apply in_map.
Qed.

(** A scan root that is not a repository gives no entry the root
    sentinel. *)
Lemma plain_root_no_sentinel wd perm entries :
  wellFormed (Dir perm entries) = true ->
  existsSync_git perm entries = false ->
  Forall (fun r => topLevelFolder r <> rootSentinel)
         (findGitRepositories wd (Dir perm entries)).
Proof.
  intros Hwf Hplain. unfold findGitRepositories.
  fold (found wd wd rootSentinel (Dir perm entries)).
  rewrite ScanFacts.found_dir, Hplain.
  destruct perm; try constructor.
  destruct (ChainFacts.wellFormed_dir _ _ Hwf) as (Hseg & _ & Hsub).
  apply Forall_forall. intros r Hr.
  apply in_flat_map in Hr. destruct Hr as [[n c] [Hin Hr]].
  unfold foundIn in Hr. cbn [fst snd] in Hr.
  destruct c as [| |p es]; try contradiction.
  rewrite String.eqb_refl in Hr.
  rewrite Forall_forall in Hseg, Hsub.
  assert (Hn : segment n).
  { apply Hseg. change n with (fst (n, Dir p es)). now apply in_map. }
  pose proof (PathFacts.length_join wd (proj1 Hn)) as Hl.
  pose proof (@found_below wd (Dir p es) (Hsub _ Hin) (join wd n) n Hl) as Hall.
  rewrite Forall_forall in Hall.
  destruct (Hall r Hr) as (Ht & _).
  rewrite Ht. intros E. destruct Hn as [_ Hs]. rewrite E in Hs. discriminate Hs.
Qed.

End NameFacts.

(** X17. In the scan of a well-formed tree whose root is not itself a
    repository, every entry lies below a real directory [n] that is a
    direct child of the root: its path is the root followed by [n] and
    further names, its top-level folder is [n], which is never the root
    sentinel, and its name is the last name of its path. *)
Theorem X17_entries_below_the_root
    (wd : string) (perm : Fs.access) (entries : list (string * Fs.node))
    (Hwf : Walk.wellFormed (Fs.Dir perm entries) = true)
    (Hplain : Fs.existsSync_git perm entries = false) :
  Forall (fun r =>
            exists n ns child,
              In (n, child) entries /\ Fs.isDirectory child = true
              /\ Scanner.path r = Path.joins wd (n :: ns)
              /\ Scanner.topLevelFolder r = n
              /\ Scanner.topLevelFolder r <> Scanner.rootSentinel
              /\ Scanner.name r = last (n :: ns) n)
         (Scanner.findGitRepositories wd (Fs.Dir perm entries)).
Proof.
  unfold Scanner.findGitRepositories.
  fold (Walk.found wd wd Scanner.rootSentinel (Fs.Dir perm entries)).
  rewrite ScanFacts.found_dir, Hplain.
  destruct perm; try constructor.
  destruct (ChainFacts.wellFormed_dir _ _ Hwf) as (Hseg & _ & Hsub).
  apply Forall_forall. intros r Hr.
  apply in_flat_map in Hr. destruct Hr as [[n c] [Hin Hr]].
  unfold Walk.foundIn in Hr. cbn [fst snd] in Hr.
  destruct c as [| |p es]; try contradiction.
  rewrite String.eqb_refl in Hr.
  rewrite Forall_forall in Hseg, Hsub.
  assert (Hn : Path.segment n).
  { apply Hseg. change n with (fst (n, Fs.Dir p es)). now apply in_map. }
  pose proof (PathFacts.length_join wd (proj1 Hn)) as Hl.
  pose proof (@NameFacts.found_below wd (Fs.Dir p es) (Hsub _ Hin) (Path.join wd n) n Hl)
    as Hall.
  rewrite Forall_forall in Hall.
  destruct (Hall r Hr) as (Ht & Hnm & chain & Hc & Hp).
  exists n, chain, (Fs.Dir p es).
  split; [exact Hin|]. split; [reflexivity|]. split; [exact Hp|].
  split; [exact Ht|]. split.
  - rewrite Ht. intros E. destruct Hn as [_ Hs]. rewrite E in Hs. discriminate Hs.
  - rewrite Hnm.
    change (Path.joins (Path.join wd n) chain) with (Path.joins wd (n :: chain)) in Hp.
    rewrite Hp. apply NameFacts.basename_joins.
    constructor; [exact Hn|].
    now apply (ChainFacts.chains_segments (Fs.Dir p es) (Hsub _ Hin)).
Qed.

Lemma X17_entries_below_the_root_witness :
  Forall (fun r =>
            exists n ns child,
              In (n, child)
                 [("a", Sample.repoDir); ("b", Sample.repoDir);
                  ("c", Fs.Dir Fs.Open [("sub", Sample.repoDir)])]
              /\ Fs.isDirectory child = true
              /\ Scanner.path r = Path.joins "/work" (n :: ns)
              /\ Scanner.topLevelFolder r = n
              /\ Scanner.topLevelFolder r <> Scanner.rootSentinel
              /\ Scanner.name r = last (n :: ns) n)
         (Scanner.findGitRepositories "/work" Sample.flat).
Proof.
  apply (@X17_entries_below_the_root "/work" Fs.Open
           [("a", Sample.repoDir); ("b", Sample.repoDir);
            ("c", Fs.Dir Fs.Open [("sub", Sample.repoDir)])]).
  - reflexivity.
  - reflexivity.
Defined.

(** ** The snapshot *)

(** X18. What [writeIdeReposCache] writes for a working directory is
    read back as the same list for that working directory, and as a miss
    for every other one, at any time stamp. *)
Theorem X18_write_then_read
    (now : Z) (wd wd' : string) (repos : list Scanner.GitRepository) :
  Cache.readIdeReposCache wd' (Cache.writeIdeReposCache now wd repos) =
  Return (if String.eqb wd wd' then Some repos else None).
Proof.
  unfold Cache.readIdeReposCache, Cache.writeIdeReposCache, Cache.readBody.
  cbn. destruct (String.eqb wd wd'); reflexivity.
Qed.

(** X19. A valid snapshot never expires: with a working directory that
    is configured and on disk, a default load that finds a valid snapshot
    takes the snapshot's list (sorted by name) whatever the tree on disk
    now holds, leaves the cache file as it is and scans nothing; two
    worlds with the same snapshot and different trees give the same
    catalog. *)
Theorem X19_valid_snapshot_is_used_as_is
    (localeCompare : string -> string -> Z)
    (st : Ide.ModuleState) (w1 w2 : Ide.World) (wd : string)
    (root1 root2 : Fs.node) (snapshot : list Scanner.GitRepository)
    (Hcfg1 : Ide.cfg_workingDirectory (Ide.configFile w1) = Some wd)
    (Hcfg2 : Ide.cfg_workingDirectory (Ide.configFile w2) = Some wd)
    (Hwd : wd <> "")
    (Hroot1 : Ide.fs w1 wd = Some root1)
    (Hroot2 : Ide.fs w2 wd = Some root2)
    (Hhit1 : Cache.readIdeReposCache wd (Ide.cache w1) = Return (Some snapshot))
    (Hhit2 : Cache.readIdeReposCache wd (Ide.cache w2) = Return (Some snapshot)) :
  let '(r1, s1, w1') := Ide.loadConfig localeCompare false st w1 in
  let '(r2, s2, w2') := Ide.loadConfig localeCompare false st w2 in
  r1 = Return tt /\ r2 = Return tt
  /\ Ide.autoDiscoveredRepos s1 = JsArray.sort (Ide.byName localeCompare) snapshot
  /\ Ide.getAllProjects s1 = Ide.getAllProjects s2
  /\ Ide.cache w1' = Ide.cache w1
  /\ Ide.trace w1' = (Ide.trace w1 ++ [Ide.IoCacheRead])%list.
Proof.
  rewrite (@LoadFacts.loadConfig_hit localeCompare w1 wd root1 Hcfg1 Hwd Hroot1 st _ Hhit1).
  rewrite (@LoadFacts.loadConfig_hit localeCompare w2 wd root2 Hcfg2 Hwd Hroot2 st _ Hhit2).
  repeat split; reflexivity.
Qed.

Lemma X19_valid_snapshot_witness :
  let w2 := Ide.mkWorld (Sample.xConfig None)
              (fun p => if String.eqb p "/x" then Some (Fs.Dir Fs.Open []) else None)
              Sample.staleCache 1700000005000 [] in
  let '(r1, s1, w1') :=
    Ide.loadConfig Sample.codeCompare false Ide.initialState Sample.staleWorld in
  let '(r2, s2, w2') := Ide.loadConfig Sample.codeCompare false Ide.initialState w2 in
  r1 = Return tt /\ r2 = Return tt
  /\ Ide.autoDiscoveredRepos s1 = []
  /\ Ide.getAllProjects s1 = Ide.getAllProjects s2
  /\ Ide.cache w1' = Sample.staleCache
  /\ Ide.trace w1' = [Ide.IoCacheRead].
Proof.
  assert (Hne : "/x" <> "") by discriminate.
  exact (@X19_valid_snapshot_is_used_as_is Sample.codeCompare Ide.initialState
           Sample.staleWorld
           (Ide.mkWorld (Sample.xConfig None)
              (fun p => if String.eqb p "/x" then Some (Fs.Dir Fs.Open []) else None)
              Sample.staleCache 1700000005000 [])
           "/x" Sample.xTree (Fs.Dir Fs.Open []) [] eq_refl eq_refl Hne
           eq_refl eq_refl eq_refl eq_refl).
Defined.

(** ** Bookmarks and merge requests *)

(** X20. The bookmark search offers one choice per bookmark it keeps,
    in the order of the configuration and without repeating or adding
    any: it keeps every bookmark for an empty input and otherwise exactly
    the bookmarks for which every keyword of the input (lower-cased,
    trimmed, split on white space) occurs in the lower-cased text made of
    name, one space and URL. Each choice is labelled with name, [ - ] and
    URL and carries that name and URL; a configuration without bookmarks
    gives no choice. *)
Theorem X20_bookmark_search
    (urls : option (list (string * string))) (input : string) :
  exists offered,
    Url.searchUrls urls input =
      map (fun entry : string * string =>
             Url.mkChoice (fst entry ++ " - " ++ snd entry) (fst entry) (snd entry))
          offered
    /\ Selection.kept
         (fun entry : string * string =>
            input = ""
            \/ forall k, In k (Str.split_ws (Str.trim (Str.toLowerCase input))) ->
                         exists pre post,
                           Str.toLowerCase (fst entry ++ " " ++ snd entry)
                           = pre ++ k ++ post)
         (match urls with Some u => u | None => [] end) offered
    /\ (input = "" -> offered = match urls with Some u => u | None => [] end).
Proof.
  unfold Url.searchUrls.
  destruct (String.eqb_spec input "") as [->|Hne].
  - eexists. split; [reflexivity|]. split; [|reflexivity].
    apply SelectionFacts.all_kept. intros e. now left.
  - eexists. split; [reflexivity|]. split; [|intros H; contradiction].
    apply SelectionFacts.filter_kept. intros e. cbv zeta.
    rewrite forallb_forall. split.
    + intros H. right. intros k Hk. apply StrFacts.includes_spec. now apply H.
    + intros [H|H]; [contradiction|]. intros k Hk.
      apply StrFacts.includes_spec. now apply H.
Qed.

Module GitFacts.
Import Git Path.

Lemma split_from_plain s :
  forall cur, hasSlash s = false -> split_from cur s = [cur ++ s].
Proof.
  induction s as [|c s IH]; intros cur H.
  - simpl. now rewrite StrFacts.append_nil_r.
  - simpl in H. apply orb_false_iff in H. destruct H as [Hc Hs].
    cbn [split_from]. rewrite Hc, (IH _ Hs), StrFacts.append_assoc. reflexivity.
Qed.

Lemma split_from_sep t :
  forall cur rest, hasSlash t = false ->
                   split_from cur (t ++ String slash rest) = (cur ++ t) :: split_from "" rest.
Proof.
  induction t as [|c t IH]; intros cur rest H.
  - cbn [append split_from]. rewrite Ascii.eqb_refl. now rewrite StrFacts.append_nil_r.
  - simpl in H. apply orb_false_iff in H. destruct H as [Hc Ht].
    cbn [append split_from]. rewrite Hc, (IH _ _ Ht), StrFacts.append_assoc. reflexivity.
Qed.

End GitFacts.

(** X21. The title of the merge request: for a branch name without [/]
    it is the entered title alone; for a branch name that begins with
    [type/ticket], optionally followed by [/] and more, it is
    [type: ticket], one space and the entered title. *)
Theorem X21_merge_request_title
    (branch commitType jiraNumber tail title : string)
    (Hbranch : Path.hasSlash branch = false)
    (Htype : Path.hasSlash commitType = false)
    (Hjira : Path.hasSlash jiraNumber = false)
    (Htail : Path.slashOrEmpty tail) :
  Git.fullTitle branch title = title
  /\ Git.fullTitle (commitType ++ "/" ++ jiraNumber ++ tail) title =
     commitType ++ ": " ++ jiraNumber ++ " " ++ title.
Proof.
  unfold Git.fullTitle, Git.defaultTitle, Git.split. split.
  - rewrite GitFacts.split_from_plain by exact Hbranch. reflexivity.
  - change (commitType ++ "/" ++ jiraNumber ++ tail)
      with (commitType ++ String Path.slash (jiraNumber ++ tail)).
    rewrite GitFacts.split_from_sep by exact Htype. cbn [append].
    assert (Hj : exists more, Git.split_from "" (jiraNumber ++ tail) = jiraNumber :: more).
    { destruct Htail as [->|[r ->]].
      - rewrite StrFacts.append_nil_r, GitFacts.split_from_plain by exact Hjira.
        now eexists.
      - rewrite GitFacts.split_from_sep by exact Hjira. now eexists. }
    destruct Hj as [more ->].
    match goal with
    | |- (if String.eqb ?d "" then _ else _) = _ =>
        destruct (String.eqb_spec d "") as [E|_]
    end.
    + exfalso. apply (f_equal String.length) in E.
      rewrite StrFacts.length_append in E. simpl in E. lia.
    + rewrite StrFacts.append_assoc. reflexivity.
Qed.

Lemma X21_merge_request_title_witness :
  Git.fullTitle "hotfix" "add search" = "add search"
  /\ Git.fullTitle ("feat" ++ "/" ++ "ABC-123" ++ "/add-search") "add search" =
     "feat" ++ ": " ++ "ABC-123" ++ " " ++ "add search".
Proof.
  apply (@X21_merge_request_title "hotfix" "feat" "ABC-123" "/add-search" "add search").
  - reflexivity.
  - reflexivity.
  - reflexivity.
  - right. now exists "add-search".
Defined.

(** ** The picker over a fresh scan *)

(** X22. After a refresh of a well-formed tree, with a consistent
    [localeCompare], the categories of the separators of the picker are
    in ascending order for every search string: the scanner as it is
    written gives the root category only to the scan root itself, which
    is then its only entry, so the root category never stands beside
    another one in a fresh scan. *)
Theorem X22_fresh_scan_separators_ascending
    (localeCompare : string -> string -> Z)
    (st : Ide.ModuleState) (w : Ide.World) (wd : string) (root : Fs.node)
    (input : string)
    (Hcfg : Ide.cfg_workingDirectory (Ide.configFile w) = Some wd)
    (Hwd : wd <> "")
    (Hroot : Ide.fs w wd = Some root)
    (Hcons : Cmp.consistent localeCompare)
    (Hwf : Walk.wellFormed root = true) :
  let '(_, st', _) := Ide.loadConfig localeCompare true st w in
  StronglySorted (fun a b => (0 <= localeCompare b a)%Z)
    (Ide.sortedCategories localeCompare
       (Ide.filterProjects (Ide.getAllProjects st') input)).
Proof.
  rewrite (@LoadFacts.loadConfig_refresh localeCompare w wd root Hcfg Hwd Hroot).
  unfold Ide.getAllProjects.
  cbn [Ide.setRepos Ide.workingDirectory Ide.autoDiscoveredRepos].
  rewrite (LoadFacts.truthy_some Hwd).
  set (toProject := fun repo : Scanner.GitRepository =>
         Ide.mkProject (Scanner.topLevelFolder repo) (Scanner.name repo)
           (Scanner.path repo)
           (Scanner.name repo ++ " (" ++ Scanner.path repo ++ ")")).
  assert (Hsub : forall l,
             Forall (fun r => Scanner.topLevelFolder r <> "/") l ->
             Forall (fun p => Ide.category p <> "/")
                    (Ide.filterProjects
                       (map toProject (JsArray.sort (Ide.byName localeCompare) l)) input)).
  { intros l Hl. apply Forall_forall. intros p Hp.
    assert (Hin : In p (map toProject (JsArray.sort (Ide.byName localeCompare) l))).
    { unfold Ide.filterProjects in Hp.
      destruct (negb (String.eqb input "")); [now apply filter_In in Hp | exact Hp]. }
    apply in_map_iff in Hin. destruct Hin as [r [<- Hr]].
    apply (Permutation_in _ (Permutation_sym (SortFacts.sort_perm _ l))) in Hr.
    rewrite Forall_forall in Hl. now apply Hl. }
  destruct root as [| |perm entries].
  - apply OrderFacts.categories_sorted; [exact Hcons | apply Hsub; constructor].
  - apply OrderFacts.categories_sorted; [exact Hcons | apply Hsub; constructor].
  - destruct (Fs.existsSync_git perm entries) eqn:Hm.
    + unfold Scanner.findGitRepositories.
      fold (Walk.found wd wd Scanner.rootSentinel (Fs.Dir perm entries)).
      rewrite ScanFacts.found_dir, Hm.
      change (JsArray.sort (Ide.byName localeCompare)
                [Scanner.mkRepo (Path.basename wd) wd Scanner.rootSentinel])
        with [Scanner.mkRepo (Path.basename wd) wd Scanner.rootSentinel].
      cbn [map]. unfold Ide.filterProjects.
      destruct (negb (String.eqb input "")).
      * cbn [filter].
        destruct (forallb _ (Ide.keywords input)); repeat constructor.
      * repeat constructor.
    + apply OrderFacts.categories_sorted; [exact Hcons|]. apply Hsub.
      now apply NameFacts.plain_root_no_sentinel.
Qed.

Lemma X22_fresh_scan_separators_witness :
  let w := Ide.mkWorld (Ide.mkConfig (Some "/w") None)
             (fun p => if String.eqb p "/w" then Some Sample.folders else None)
             Cache.Missing 0 [] in
  let '(_, st', _) := Ide.loadConfig Cmp.byLength true Ide.initialState w in
  StronglySorted (fun a b => (0 <= Cmp.byLength b a)%Z)
    (Ide.sortedCategories Cmp.byLength
       (Ide.filterProjects (Ide.getAllProjects st') ""))
  /\ map Ide.category (Ide.getAllProjects st') = ["tools"; "ai"; "web"]
  /\ Ide.sortedCategories Cmp.byLength
       (Ide.filterProjects (Ide.getAllProjects st') "") = ["ai"; "web"; "tools"].
Proof.
  cbv zeta.
  assert (Hne : "/w" <> "") by discriminate.
  pose proof (@X22_fresh_scan_separators_ascending Cmp.byLength Ide.initialState
                (Ide.mkWorld (Ide.mkConfig (Some "/w") None)
                   (fun p => if String.eqb p "/w" then Some Sample.folders else None)
                   Cache.Missing 0 [])
                "/w" Sample.folders "" eq_refl Hne eq_refl
                OrderFacts.byLength_consistent eq_refl) as H.
  revert H.
  destruct (Ide.loadConfig Cmp.byLength true Ide.initialState
              (Ide.mkWorld (Ide.mkConfig (Some "/w") None)
                 (fun p => if String.eqb p "/w" then Some Sample.folders else None)
                 Cache.Missing 0 [])) as [[r st'] w'] eqn:E.
  intros H. split; [exact H|].
  vm_compute in E. injection E as _ <- _. split; reflexivity.
Defined.
